(** * SearchClient: paging through the Hypothesis search API

    A shallow embedding of [src/sidebar/search-client.js] and the
    verification of its event protocol.

    The class [SearchClient] extends an event emitter, owns three mutable
    fields ([_canceled], [_results], [_resultCount]) and drives a recursive
    asynchronous fetch loop ([_getBatch]).  The embedding keeps that
    structure:

    - JS values, objects (as finite maps with string keys) and events are
      data;
    - the synchronous parts of every method are written in a small
      state-and-exception monad over the client's fields, so that
      [emit], [try]/[catch] and early [return] read as in the source;
    - the one suspension point, [await this._searchFn(searchQuery)], splits
      [_getBatch] in two: the part that runs up to the call (and leaves a
      fetch in flight) and the part that resumes once the promise settles;
    - the client reacts to inputs ([get], [cancel], a promise settling), one
      input per turn of the JS event loop.

    The collaborators are parameters.  The search function returns a promise
    for every request; its outcome may depend on the request and on the
    calls made before.  The subscribers are known by what their handlers do
    to [emit]: return, or throw; they do not call back into the client
    while an event is being emitted.

    The entry point of the annotator bundle, [src/annotator/index.js], is
    embedded in [Module Annotator] and verified at the end of the file. *)

From stdpp Require Import gmap strings list fin_maps.
From Stdlib Require Import ZArith Lia.

Local Open Scope string_scope.
Local Open Scope list_scope.
Local Open Scope Z_scope.

(** ** JavaScript values *)

(** The values that travel through the client: query parameters, the fields
    of an annotation, cursors and errors.  Numbers are integers here (page
    sizes, totals); [JError msg] stands for [new Error(msg)]. *)
Inductive JsVal : Type :=
  | JUndefined
  | JNull
  | JBool (b : bool)
  | JNum (n : Z)
  | JStr (s : string)
  | JError (message : string).

(** [ToBoolean]: what [if (v)] and [v && ...] test. *)
Definition truthy (v : JsVal) : bool :=
  match v with
  | JUndefined => false
  | JNull => false
  | JBool b => b
  | JNum n => negb (n =? 0)
  | JStr s => match s with EmptyString => false | String _ _ => true end
  | JError _ => true
  end.

(** An annotation and a search query are plain JS objects. *)
Abbreviation Annotation := (gmap string JsVal).
Abbreviation SearchQuery := (gmap string JsVal).

(** [obj[key]]: a missing property reads as [undefined]. *)
Definition prop (obj : gmap string JsVal) (key : string) : JsVal :=
  default JUndefined (obj !! key).

(** [SearchResult]: [replies] is optional. *)
Record SearchResult : Type := mkSearchResult {
  total : Z;
  rows : list Annotation;
  replies : option (list Annotation)
}.

(** How the promise returned by the search function settles. *)
Inductive Outcome : Type :=
  | Resolved (results : SearchResult)
  | Rejected (err : JsVal).

(** The four events of the client, with their payloads. *)
Inductive Event : Type :=
  | EvResultCount (count : Z)
  | EvResults (annotations : list Annotation)
  | EvError (err : JsVal)
  | EvEnd.

(** ** The client *)

(** The options fixed by the constructor. [_maxResults] is [number|null]. *)
Record Options : Type := mkOptions {
  _chunkSize : Z;
  _separateReplies : bool;
  _incremental : bool;
  _maxResults : option Z;
  _sortBy : string;
  _sortOrder : string
}.

(** The constructor's defaults. *)
Definition defaultOptions : Options :=
  {| _chunkSize := 200;
     _separateReplies := true;
     _incremental := true;
     _maxResults := None;
     _sortBy := "created";
     _sortOrder := "asc" |}.

(** A suspended [_getBatch] frame: the [query] it captured and the promise it
    awaits.  The promise's outcome is fixed when the search function is
    called; when it settles is up to the event loop. *)
Record Fetch : Type := mkFetch {
  fetch_query : SearchQuery;
  fetch_promise : Outcome
}.

(** The mutable fields of the instance, followed by what its collaborators
    observe: the events emitted so far, the requests passed to the search
    function so far, and the fetches in flight (oldest first). *)
Record Client : Type := mkClient {
  _canceled : bool;
  _results : list Annotation;
  _resultCount : option Z;
  emitted : list Event;
  sent : list SearchQuery;
  inflight : list Fetch
}.

(** The fields as the constructor leaves them. *)
Definition new_client : Client :=
  {| _canceled := false; _results := []; _resultCount := None;
     emitted := []; sent := []; inflight := [] |}.

Definition set_canceled (b : bool) (c : Client) : Client :=
  mkClient b (_results c) (_resultCount c) (emitted c) (sent c) (inflight c).
Definition set_results (l : list Annotation) (c : Client) : Client :=
  mkClient (_canceled c) l (_resultCount c) (emitted c) (sent c) (inflight c).
Definition set_resultCount (n : option Z) (c : Client) : Client :=
  mkClient (_canceled c) (_results c) n (emitted c) (sent c) (inflight c).
Definition set_emitted (l : list Event) (c : Client) : Client :=
  mkClient (_canceled c) (_results c) (_resultCount c) l (sent c) (inflight c).
Definition set_sent (l : list SearchQuery) (c : Client) : Client :=
  mkClient (_canceled c) (_results c) (_resultCount c) (emitted c) l (inflight c).
Definition set_inflight (l : list Fetch) (c : Client) : Client :=
  mkClient (_canceled c) (_results c) (_resultCount c) (emitted c) (sent c) l.

(** ** Synchronous code: state and exceptions *)

(** A statement either completes normally or throws. *)
Inductive Completion (A : Type) : Type :=
  | Normal (a : A)
  | Throw (exn : JsVal).
Arguments Normal {A} a.
Arguments Throw {A} exn.

Definition M (A : Type) : Type := Client -> Completion A * Client.

Definition ret {A} (a : A) : M A := fun c => (Normal a, c).

Definition bind {A B} (m : M A) (k : A -> M B) : M B :=
  fun c => match m c with
           | (Normal a, c') => k a c'
           | (Throw e, c') => (Throw e, c')
           end.

Definition throw {A} (e : JsVal) : M A := fun c => (Throw e, c).

(** [try { body } catch (err) { handler }] *)
Definition try_catch {A} (body : M A) (handler : JsVal -> M A) : M A :=
  fun c => match body c with
           | (Normal a, c') => (Normal a, c')
           | (Throw e, c') => handler e c'
           end.

Definition read {A} (field : Client -> A) : M A := fun c => (Normal (field c), c).
Definition write (update : Client -> Client) : M unit := fun c => (Normal tt, update c).

Notation "'do' x <- m ; k" := (bind m (fun x => k))
  (at level 10, x name, m at level 100, k at level 200).
Notation "m ;; k" := (bind m (fun _ => k))
  (at level 100, k at level 200, right associativity).

(** [await p]: the value the promise resolved with, or its rejection thrown. *)
Definition await (p : Outcome) : M SearchResult :=
  match p with
  | Resolved results => ret results
  | Rejected err => throw err
  end.

(** ** Reading event logs *)

Definition is_resultCount (ev : Event) : bool :=
  match ev with EvResultCount _ => true | _ => false end.
Definition is_results (ev : Event) : bool :=
  match ev with EvResults _ => true | _ => false end.
Definition is_error (ev : Event) : bool :=
  match ev with EvError _ => true | _ => false end.
Definition is_end (ev : Event) : bool :=
  match ev with EvEnd => true | _ => false end.

(** The payloads of the [results] events of a log, in order. *)
Fixpoint results_payloads (log : list Event) : list (list Annotation) :=
  match log with
  | [] => []
  | EvResults chunk :: log' => chunk :: results_payloads log'
  | _ :: log' => results_payloads log'
  end.

(** *** The order of a session's events *)

Definition at_most_one_resultCount (rc : list Event) : Prop :=
  rc = [] \/ exists count, rc = [EvResultCount count].

Definition only_results (rs : list Event) : Prop :=
  Forall (fun ev => is_results ev = true) rs.

Definition terminal (term : list Event) : Prop :=
  term = [EvEnd] \/ exists err, term = [EvError err; EvEnd].

(** At most one [resultCount], then [results] events, then [end], with
    [error] just before it if at all; [how_many] says how many [results]
    events there are. *)
Definition fixed_order
    (how_many : list Event -> list Event -> Prop) (log : list Event) : Prop :=
  exists rc rs term,
    log = rc ++ rs ++ term /\
    at_most_one_resultCount rc /\
    only_results rs /\
    terminal term /\
    how_many rs term.

(** One per page processed when incremental, exactly one otherwise. *)
Definition one_per_page_or_one
    (incremental : bool) (pages : nat) (rs term : list Event) : Prop :=
  if incremental then length rs = pages else length rs = 1%nat.

(** One per page processed when incremental; otherwise exactly one, unless
    the session ends with an error, and then none. *)
Definition one_per_page_or_one_unless_error
    (incremental : bool) (pages : nat) (rs term : list Event) : Prop :=
  if incremental then length rs = pages
  else if existsb is_error term then rs = [] else length rs = 1%nat.

(** The same options, with [incremental] chosen. *)
Definition with_incremental (incremental : bool) (this : Options) : Options :=
  mkOptions (_chunkSize this) (_separateReplies this) incremental
    (_maxResults this) (_sortBy this) (_sortOrder this).

Section Engine.

(** The injected search function.  It returns a promise; what the promise
    settles to may depend on the request and on how many calls came
    before (the data may change between calls). *)
Variable _searchFn : nat -> SearchQuery -> Outcome.

(** The subscribers.  The emitter calls them synchronously and an
    exception of theirs leaves [emit]; [listeners log ev] is the exception
    thrown, if any, by the handlers of [ev] when [log] was emitted
    before. *)
Variable listeners : list Event -> Event -> option JsVal.

Variable this : Options.

(** [this.emit(name, payload)] *)
Definition emit (ev : Event) : M unit :=
  fun c =>
    let c' := set_emitted (emitted c ++ [ev]) c in
    match listeners (emitted c) ev with
    | None => (Normal tt, c')
    | Some exn => (Throw exn, c')
    end.

(** The object literal at the top of [_getBatch]: the engine's paging
    parameters, then the caller's query spread over them. *)
Definition pagingDefaults : SearchQuery :=
  {[ "limit" := JNum (_chunkSize this);
     "sort" := JStr (_sortBy this);
     "order" := JStr (_sortOrder this);
     "_separate_replies" := JBool (_separateReplies this) ]}.

Definition searchQuery (query : SearchQuery) (searchAfter : JsVal) : SearchQuery :=
  let searchQuery := query ∪ pagingDefaults in
  if truthy searchAfter
  then <["search_after" := searchAfter]> searchQuery
  else searchQuery.

(** [_getBatch(query, searchAfter)] up to its [await]: build the request,
    call the search function, and suspend on the promise. *)
Definition _getBatch (query : SearchQuery) (searchAfter : JsVal) : M unit :=
  fun c =>
    let request := searchQuery query searchAfter in
    let promise := _searchFn (length (sent c)) request in
    (Normal tt,
     set_inflight (inflight c ++ [mkFetch query promise])
       (set_sent (sent c ++ [request]) c)).

(** [this._maxResults && results.total > this._maxResults] *)
Definition exceedsMaxResults (results : SearchResult) : bool :=
  match _maxResults this with
  | None => false
  | Some maxResults => truthy (JNum maxResults) && (maxResults <? total results)
  end.

(** [results.rows.concat(results.replies || [])] *)
Definition chunk_of (results : SearchResult) : list Annotation :=
  rows results ++ default [] (replies results).

(** [chunk.length === this._chunkSize] *)
Definition nextBatchAvailable (chunk : list Annotation) : bool :=
  Z.of_nat (length chunk) =? _chunkSize this.

(** [chunk.length > 0 ? chunk[chunk.length - 1][this._sortBy] : null] *)
Definition nextSearchAfter (chunk : list Annotation) : JsVal :=
  match last chunk with
  | Some annotation => prop annotation (_sortBy this)
  | None => JNull
  end.

(** The [try] block of [_getBatch], from the point where the awaited
    promise has settled. *)
Definition _getBatch_try (query : SearchQuery) (settled : Outcome) : M unit :=
  do results <- await settled;
  do canceled <- read _canceled;
  if canceled then ret tt
  else if exceedsMaxResults results then
    emit (EvError (JError "Results size exceeds maximum allowed annotations")) ;;
    emit EvEnd
  else
    let chunk := chunk_of results in
    do resultCount <- read _resultCount;
    (match resultCount with
     | None =>
         write (set_resultCount (Some (total results))) ;;
         emit (EvResultCount (total results))
     | Some _ => ret tt
     end) ;;
    (if _incremental this
     then emit (EvResults chunk)
     else write (fun c => set_results (_results c ++ chunk) c)) ;;
    if nextBatchAvailable chunk && truthy (nextSearchAfter chunk)
    then _getBatch query (nextSearchAfter chunk)
    else
      (if negb (_incremental this)
       then (do buffered <- read _results; emit (EvResults buffered))
       else ret tt) ;;
      emit EvEnd.

(** The [catch] block. *)
Definition _getBatch_catch (err : JsVal) : M unit :=
  do canceled <- read _canceled;
  if canceled then ret tt
  else emit (EvError err) ;; emit EvEnd.

(** The rest of [_getBatch] after the [await]. *)
Definition _getBatch_resume (query : SearchQuery) (settled : Outcome) : M unit :=
  try_catch (_getBatch_try query settled) _getBatch_catch.

(** [get(query)] *)
Definition get (query : SearchQuery) : M unit :=
  write (set_results []) ;;
  write (set_resultCount None) ;;
  _getBatch query JUndefined.

(** [cancel()] *)
Definition cancel : M unit :=
  write (set_canceled true) ;;
  emit EvEnd.

(** ** Turns of the event loop *)

(** What can happen to the client: a caller invokes [get] or [cancel], or
    the promise of the [i]-th fetch in flight settles and the suspended
    [_getBatch] resumes. *)
Inductive Input : Type :=
  | CallGet (query : SearchQuery)
  | CallCancel
  | Settle (i : nat).

(** One turn, as it leaves the client.  [_getBatch] is awaited by nobody:
    what it throws after resuming rejects its own promise and goes no
    further.  What [cancel] throws (a handler of [end] did) goes to its
    caller, outside the client.  Settling a fetch that is not in flight is
    no turn at all. *)
Definition step (c : Client) (i : Input) : Client :=
  match i with
  | CallGet query => snd (get query c)
  | CallCancel => snd (cancel c)
  | Settle i =>
      match inflight c !! i with
      | None => c
      | Some fetch =>
          snd (_getBatch_resume (fetch_query fetch) (fetch_promise fetch)
                 (set_inflight (delete i (inflight c)) c))
      end
  end.

Definition steps (c : Client) (inputs : list Input) : Client :=
  foldl step c inputs.

(** A session left alone: as long as a fetch is in flight, its promise
    settles and the client processes it; at most [turns] of them. *)
Fixpoint drain (turns : nat) (c : Client) : Client :=
  match turns with
  | O => c
  | S turns' =>
      match inflight c with
      | [] => c
      | _ :: _ => drain turns' (step c (Settle 0))
      end
  end.

(** [get(query)] on client [c], then [turns] turns with no other call. *)
Definition session (c : Client) (query : SearchQuery) (turns : nat) : Client :=
  drain turns (step c (CallGet query)).

(** The events emitted since the client was in state [c0]. *)
Definition events_since (c0 c : Client) : list Event :=
  drop (length (emitted c0)) (emitted c).

(** The requests sent since the client was in state [c0]. *)
Definition requests_since (c0 c : Client) : list SearchQuery :=
  drop (length (sent c0)) (sent c).

(** What the search function answers to [requests], the first of which is
    its [k]-th call. *)
Fixpoint served (k : nat) (requests : list SearchQuery) : list Outcome :=
  match requests with
  | [] => []
  | request :: requests' => _searchFn k request :: served (S k) requests'
  end.

(** An answer the client can process: a page within the size limit. *)
Definition processable (settled : Outcome) : bool :=
  match settled with
  | Resolved results => negb (exceedsMaxResults results)
  | Rejected _ => false
  end.

(** How many of the requests sent since [c0] were answered with such a
    page. *)
Definition pages_processed (c0 c : Client) : nat :=
  length (List.filter processable
            (served (length (sent c0)) (requests_since c0 c))).

(** A session started by [get(query)] on client [c0] that is still under
    way: the client is not canceled, the answer to its latest request is in
    flight, all earlier requests were answered with pages it processed, and
    it has emitted the count, if the first page is in, and then [results]
    events only. *)
Definition running (c0 : Client) (query : SearchQuery) (c : Client) : Prop :=
  _canceled c = false /\
  exists requests request rc rs,
    sent c = sent c0 ++ requests ++ [request] /\
    inflight c =
      [mkFetch query
         (_searchFn (length (sent c0) + length requests)%nat request)] /\
    forallb processable (served (length (sent c0)) requests) = true /\
    emitted c = emitted c0 ++ rc ++ rs /\
    at_most_one_resultCount rc /\
    only_results rs /\
    length rs = (if _incremental this then length requests else 0%nat) /\
    (_resultCount c = None -> rc = [] /\ rs = []).

(** A session that is over. *)
Definition ended (c0 c : Client) : Prop :=
  inflight c = [] /\
  fixed_order
    (one_per_page_or_one_unless_error (_incremental this) (pages_processed c0 c))
    (events_since c0 c).

End Engine.

Definition no_resultCount (log : list Event) : Prop :=
  Forall (fun ev => is_resultCount ev = false) log.

(** Two runs of one session, on the same data, the first incremental and
    the second in batch mode, after the same number of turns: they sent the
    same requests and await the same fetch; while the session is under way
    the batch run has buffered what the incremental run has delivered, and
    once it is over the batch run has delivered that in one [results]
    event, unless the session ended with an error. *)
Definition lockstep (c0 ci cb : Client) : Prop :=
  _canceled ci = false /\
  _canceled cb = false /\
  sent ci = sent cb /\
  inflight ci = inflight cb /\
  _resultCount ci = _resultCount cb /\
  exists li lb,
    emitted ci = emitted c0 ++ li /\
    emitted cb = emitted c0 ++ lb /\
    (((exists f, inflight cb = [f]) /\
      results_payloads lb = [] /\
      existsb is_error lb = false /\
      _results cb = concat (results_payloads li))
     \/
     (inflight cb = [] /\
      results_payloads lb =
        if existsb is_error lb then [] else [concat (results_payloads li)])).

(** Subscribers whose handlers never throw. *)
Definition quiet (listeners : list Event -> Event -> option JsVal) : Prop :=
  forall log ev, listeners log ev = None.

(** ** Test data *)

Definition no_throw : list Event -> Event -> option JsVal := fun _ _ => None.

(** An annotation with the given [created] value. *)
Definition ann (created : Z) : Annotation := {[ "created" := JNum created ]}.

(** Three annotations created at 1, 2 and 3, served in pages of at most
    [limit] annotations after the cursor; the reported total is 3. *)
Definition three_items (_ : nat) (request : SearchQuery) : Outcome :=
  let after := match request !! "search_after" with
               | Some (JNum n) => n
               | _ => 0
               end in
  let limit := match request !! "limit" with
               | Some (JNum n) => Z.to_nat n
               | _ => 0%nat
               end in
  let matching := filter (fun n => after < n) [1; 2; 3] in
  Resolved (mkSearchResult 3 (ann <$> take limit matching) None).

Definition pages_of_two : Options :=
  mkOptions 2 true true None "created" "asc".

(** A search function that serves one annotation and reports a total of one. *)
Definition one_item (_ : nat) (_ : SearchQuery) : Outcome :=
  Resolved (mkSearchResult 1 [ann 1] None).

(** Subscribers whose [results] handler throws. *)
Definition throw_on_results : list Event -> Event -> option JsVal :=
  fun _ ev => if is_results ev then Some (JError "handler failed") else None.

(** A search function whose every call fails. *)
Definition unreachable (_ : nat) (_ : SearchQuery) : Outcome :=
  Rejected (JError "Network error").

(** ** More test data *)

(** Subscribers whose [error] handler throws, and whose [end] handler
    does. *)
Definition throw_on_error : list Event -> Event -> option JsVal :=
  fun _ ev => if is_error ev then Some (JError "handler failed") else None.

Definition throw_on_end : list Event -> Event -> option JsVal :=
  fun _ ev => if is_end ev then Some (JError "handler failed") else None.

(** An annotation without a [created] field, and a search function that
    serves two of them out of five. *)
Definition untimed : Annotation := {[ "id" := JStr "a" ]}.

Definition two_untimed (_ : nat) (_ : SearchQuery) : Outcome :=
  Resolved (mkSearchResult 5 [untimed; untimed] None).

Definition sorted_by_updated : SearchQuery := {[ "sort" := JStr "updated" ]}.

(** Batch delivery in pages of two, for result sets of at most two. *)
Definition at_most_two : Options :=
  mkOptions 2 true false (Some 2) "created" "asc".

Definition batch_defaults : Options :=
  mkOptions 200 true false None "created" "asc".

(** A search function whose total grows from call to call: 2, 3, ... *)
Definition growing_total (k : nat) (_ : SearchQuery) : Outcome :=
  Resolved (mkSearchResult (Z.of_nat k + 2) [ann 1; ann 2] None).

Definition no_page_size : Options :=
  mkOptions 0 true true None "created" "asc".

(** A search function that serves a full page of two and then fails. *)
Definition fails_on_second (k : nat) (_ : SearchQuery) : Outcome :=
  match k with
  | O => Resolved (mkSearchResult 4 [ann 1; ann 2] None)
  | S _ => Rejected (JError "Network error")
  end.

(** A search function that serves one row and, separately, one reply to
    it. *)
Definition row_and_reply (_ : nat) (_ : SearchQuery) : Outcome :=
  Resolved (mkSearchResult 5 [ann 1] (Some [ann 5])).

Definition pages_of_three : Options :=
  mkOptions 3 true true None "created" "asc".

(** Subscribers whose [resultCount] handler throws. *)
Definition throw_on_resultCount : list Event -> Event -> option JsVal :=
  fun _ ev =>
    if is_resultCount ev then Some (JError "handler failed") else None.

(** * The annotator's entry point

    [src/annotator/index.js] waits for the document and then builds the
    client in the host page: [documentReady().then(init)].  The page is
    modelled by what that code reads and writes: [document.readyState],
    whether [window.PDFViewerApplication] is defined, the flag
    [window.__hypothesis_frame], the elements carrying
    [data-hypothesis-asset], the promise made by [documentReady] and the
    listeners the code registers.  The classes [init] instantiates are
    outside the file; constructing one, and calling its [listen] or
    [destroy], is recorded as an effect.  The [link] element the boot script
    adds is taken to be there. *)

Module Annotator.

Inductive ReadyState : Type := loading | interactive | complete.

Inductive Component : Type := Guest | FrameConnector | Sidebar | Notebook.

Inductive Effect : Type :=
  | New (component : Component)
  | GuestDocumentType (documentType : string)
  | Listen
  | Destroy (component : Component)
  | Remove (asset : nat).

(** The locals of [init] that its [destroy] listener captures besides
    [guest]; each is [null] or the object constructed. *)
Record Locals : Type := mkLocals {
  frameConnector : option Component;
  sidebar : option Component;
  notebook : option Component
}.

Record Page : Type := mkPage {
  readyState : ReadyState;
  PDFViewerApplication : bool;
  __hypothesis_frame : bool;
  assets : list nat;
  (** the promise of [documentReady]: resolved or still pending *)
  resolved : bool;
  (** the [readystatechange] listeners on the document *)
  readystatechange : nat;
  (** the [destroy] listeners on the link element, in order *)
  destroy : list Locals;
  effects : list Effect
}.

(** A page as the script finds it. *)
Definition fresh
    (state : ReadyState) (pdf : bool) (assets : list nat) : Page :=
  mkPage state pdf false assets false 0 [] [].

Definition do_effects (es : list Effect) (p : Page) : Page :=
  mkPage (readyState p) (PDFViewerApplication p) (__hypothesis_frame p)
    (assets p) (resolved p) (readystatechange p) (destroy p)
    (effects p ++ es).

(** The components a log of effects constructs, and those it destroys. *)
Definition constructed (es : list Effect) : list Component :=
  omap (fun e => match e with New c => Some c | _ => None end) es.

Definition destroyed (es : list Effect) : list Component :=
  omap (fun e => match e with Destroy c => Some c | _ => None end) es.

Section Script.

(** [getConfig('annotator').subFrameIdentifier] *)
Variable subFrameIdentifier : JsVal.

(** [init()] *)
Definition init (p : Page) : Page :=
  let isPDF := PDFViewerApplication p in
  let p := do_effects
             [New Guest; GuestDocumentType (if isPDF then "pdf" else "html")]
             p in
  let '(p, locals) :=
    if truthy subFrameIdentifier then
      (mkPage (readyState p) (PDFViewerApplication p) true (assets p)
         (resolved p) (readystatechange p) (destroy p) (effects p),
       mkLocals None None None)
    else
      (do_effects [New FrameConnector; Listen; New Sidebar; New Notebook] p,
       mkLocals (Some FrameConnector) (Some Sidebar) (Some Notebook)) in
  mkPage (readyState p) (PDFViewerApplication p) (__hypothesis_frame p)
    (assets p) (resolved p) (readystatechange p) (destroy p ++ [locals])
    (effects p).

(** [object?.destroy()] *)
Definition destroy_if_any (object : option Component) : list Effect :=
  match object with
  | Some component => [Destroy component]
  | None => []
  end.

(** The listener [init] registers for [destroy]. *)
Definition on_destroy (locals : Locals) (p : Page) : Page :=
  let p := do_effects
             ([Destroy Guest]
              ++ destroy_if_any (frameConnector locals)
              ++ destroy_if_any (sidebar locals)
              ++ destroy_if_any (notebook locals)) p in
  let clientAssets := assets p in
  mkPage (readyState p) (PDFViewerApplication p) (__hypothesis_frame p)
    [] (resolved p) (readystatechange p) (destroy p)
    (effects p ++ (Remove <$> clientAssets)).

(** [resolve()], with [init] as the reaction attached by [then]: the first
    call fulfils the promise and [init] runs once the running script or
    listener is done, before any other event; later calls do nothing. *)
Definition resolve (p : Page) : Page :=
  if resolved p then p
  else mkPage (readyState p) (PDFViewerApplication p) (__hypothesis_frame p)
         (assets p) true (readystatechange p) (destroy p) (effects p).

(** [documentReady()]: the executor of its promise. *)
Definition documentReady (p : Page) : Page :=
  let p := match readyState p with
           | loading => p
           | _ => resolve p
           end in
  mkPage (readyState p) (PDFViewerApplication p) (__hypothesis_frame p)
    (assets p) (resolved p) (S (readystatechange p)) (destroy p) (effects p).

(** [documentReady().then(init)], the last statement of the module. *)
Definition start (p : Page) : Page :=
  let p := documentReady p in
  if resolved p then init p else p.

(** What happens to the page afterwards. *)
Inductive DomEvent : Type :=
  | ReadyStateChange (state : ReadyState)
  | DestroyEvent.

Definition dispatch (p : Page) (ev : DomEvent) : Page :=
  match ev with
  | ReadyStateChange state =>
      let p := mkPage state (PDFViewerApplication p) (__hypothesis_frame p)
                 (assets p) (resolved p) (readystatechange p) (destroy p)
                 (effects p) in
      match readystatechange p with
      | O => p
      | S _ => if resolved p then p else init (resolve p)
      end
  | DestroyEvent => foldl (fun p locals => on_destroy locals p) p (destroy p)
  end.

Definition run (p : Page) (events : list DomEvent) : Page :=
  foldl dispatch (start p) events.

(** What [init] constructs, and what its [destroy] listener captures. *)
Definition built : list Component :=
  Guest :: if truthy subFrameIdentifier then []
           else [FrameConnector; Sidebar; Notebook].

Definition captured : Locals :=
  if truthy subFrameIdentifier then mkLocals None None None
  else mkLocals (Some FrameConnector) (Some Sidebar) (Some Notebook).

(** The page before [init]: the promise is pending, the script listens for
    [readystatechange], and nothing was built. *)
Definition waiting (p : Page) : Prop :=
  resolved p = false /\ readystatechange p = 1%nat /\ destroy p = [] /\
  effects p = [] /\ __hypothesis_frame p = false.

(** The page after [init]. *)
Definition initialised (p : Page) : Prop :=
  resolved p = true /\ destroy p = [captured] /\
  constructed (effects p) = built /\
  __hypothesis_frame p = truthy subFrameIdentifier.

End Script.

Definition is_ReadyStateChange (ev : DomEvent) : bool :=
  match ev with ReadyStateChange _ => true | DestroyEvent => false end.

End Annotator.

(** * Verification *)

(** ** The example of the specification *)

Example three_items_incremental :
  emitted (session three_items no_throw pages_of_two new_client ∅ 5)
  = [EvResultCount 3; EvResults [ann 1; ann 2]; EvResults [ann 3]; EvEnd].
Proof. vm_compute. reflexivity. Qed.

Example three_items_batch :
  emitted (session three_items no_throw
             (mkOptions 2 true false None "created" "asc") new_client ∅ 5)
  = [EvResultCount 3; EvResults [ann 1; ann 2; ann 3]; EvEnd].
Proof. vm_compute. reflexivity. Qed.

Example three_items_requests :
  (fun request : SearchQuery =>
     (request !! "limit", request !! "sort", request !! "search_after"))
  <$> sent (session three_items no_throw pages_of_two new_client ∅ 5)
  = [ (Some (JNum 2), Some (JStr "created"), None);
      (Some (JNum 2), Some (JStr "created"), Some (JNum 2)) ].
Proof. vm_compute. reflexivity. Qed.

Example rejected_first_call :
  emitted (session unreachable no_throw defaultOptions new_client ∅ 5)
  = [EvError (JError "Network error"); EvEnd].
Proof. vm_compute. reflexivity. Qed.

(** ** One turn at a time *)

Ltac unfold_monad :=
  unfold try_catch, bind, ret, throw, read, write, await, emit.

Section Turns.

Variable _searchFn : nat -> SearchQuery -> Outcome.
Variable listeners : list Event -> Event -> option JsVal.
Variable this : Options.

Abbreviation step := (step _searchFn listeners this).
Abbreviation steps := (steps _searchFn listeners this).
Abbreviation drain := (drain _searchFn listeners this).
Abbreviation resume := (_getBatch_resume _searchFn listeners this).

Lemma set_inflight_same (c : Client) : set_inflight (inflight c) c = c.
Proof. by destruct c. Qed.

Lemma delete_out_of_range {A} (l : list A) (i : nat) :
  (length l <= i)%nat -> delete i l = l.
Proof.
  intros Hi. rewrite delete_take_drop, take_ge, drop_ge by lia.
  apply app_nil_r.
Qed.

(** A canceled client discards whatever a fetch settles to. *)
Lemma resume_canceled (query : SearchQuery) (settled : Outcome) (c : Client) :
  _canceled c = true ->
  resume query settled c = (Normal tt, c).
Proof.
  intros Hc. unfold _getBatch_resume, _getBatch_try, _getBatch_catch.
  destruct settled; unfold_monad; simpl; by rewrite Hc.
Qed.

Lemma settle_canceled (c : Client) (i : nat) :
  _canceled c = true ->
  step c (Settle i) = set_inflight (delete i (inflight c)) c.
Proof.
  intros Hc. simpl. destruct (inflight c !! i) as [f|] eqn:Hi.
  - by rewrite resume_canceled.
  - rewrite delete_out_of_range; [by rewrite set_inflight_same|].
    by apply lookup_ge_None.
Qed.

Lemma steps_cons (c : Client) (i : Input) (inputs : list Input) :
  steps c (i :: inputs) = steps (step c i) inputs.
Proof. reflexivity. Qed.

Lemma steps_app (c : Client) (inputs inputs' : list Input) :
  steps c (inputs ++ inputs') = steps (steps c inputs) inputs'.
Proof. apply foldl_app. Qed.

Lemma steps_settle_canceled (schedule : list nat) (c : Client) :
  _canceled c = true ->
  let c' := steps c (Settle <$> schedule) in
  _canceled c' = true /\ _results c' = _results c /\
  _resultCount c' = _resultCount c /\
  emitted c' = emitted c /\ sent c' = sent c /\
  (length (inflight c') <= length (inflight c))%nat.
Proof.
  revert c. induction schedule as [|i schedule IH]; intros c Hc.
  - repeat split; auto.
  - rewrite fmap_cons, steps_cons, settle_canceled by done.
    destruct (IH (set_inflight (delete i (inflight c)) c) Hc)
      as (H1 & H2 & H3 & H4 & H5 & H6).
    repeat split; auto.
    etrans; [exact H6|]. simpl.
    destruct (decide (i < length (inflight c))%nat).
    + rewrite length_delete; [lia|]. by apply lookup_lt_is_Some.
    + rewrite delete_out_of_range; [done|lia].
Qed.

(** [_canceled] never goes back to [false]. *)
Lemma canceled_monotonic (c : Client) (i : Input) :
  _canceled c = true -> _canceled (step c i) = true.
Proof.
  intros Hc. destruct i as [query| |i].
  - done.
  - simpl. unfold cancel. unfold_monad. simpl. by destruct (listeners _ _).
  - by rewrite settle_canceled.
Qed.

(** Giving up on the client is final: whatever is called or settles later,
    the flag stays set. *)
Lemma steps_canceled (inputs : list Input) (c : Client) :
  _canceled c = true -> _canceled (steps c inputs) = true.
Proof.
  revert c. induction inputs as [|i inputs IH]; intros c Hc; [done|].
  rewrite steps_cons. by apply IH, canceled_monotonic.
Qed.

Lemma cancel_effect (c : Client) :
  let c' := step c CallCancel in
  _canceled c' = true /\ emitted c' = emitted c ++ [EvEnd] /\
  sent c' = sent c /\ inflight c' = inflight c.
Proof.
  simpl. unfold cancel. unfold_monad. simpl.
  by destruct (listeners _ _).
Qed.

Lemma get_effect (c : Client) (query : SearchQuery) :
  step c (CallGet query) =
  mkClient (_canceled c) [] None (emitted c)
    (sent c ++ [searchQuery this query JUndefined])
    (inflight c ++ [mkFetch query
       (_searchFn (length (sent c)) (searchQuery this query JUndefined))]).
Proof. reflexivity. Qed.

(** *** Subscribers that return normally *)

Lemma emit_quiet (ev : Event) (c : Client) :
  quiet listeners ->
  emit listeners ev c = (Normal tt, set_emitted (emitted c ++ [ev]) c).
Proof. intros Hq. unfold emit. by rewrite Hq. Qed.

(** A rejected fetch, on a client that was not canceled. *)
Lemma resume_rejected (query : SearchQuery) (err : JsVal) (c : Client) :
  quiet listeners ->
  _canceled c = false ->
  resume query (Rejected err) c =
  (Normal tt, set_emitted (emitted c ++ [EvError err; EvEnd]) c).
Proof.
  intros Hq Hc. unfold _getBatch_resume, _getBatch_try, _getBatch_catch.
  unfold try_catch, bind, throw, read, await, ret. simpl. rewrite Hc.
  rewrite !emit_quiet by done. simpl.
  by rewrite <-app_assoc.
Qed.

(** A page over the size limit. *)
Lemma resume_exceeding (query : SearchQuery) (results : SearchResult) (c : Client) :
  quiet listeners ->
  _canceled c = false ->
  exceedsMaxResults this results = true ->
  resume query (Resolved results) c =
  (Normal tt,
   set_emitted
     (emitted c ++
      [EvError (JError "Results size exceeds maximum allowed annotations");
       EvEnd]) c).
Proof.
  intros Hq Hc Hx. unfold _getBatch_resume, _getBatch_try.
  unfold try_catch, bind, read, await, ret. simpl. rewrite Hc, Hx.
  rewrite !emit_quiet by done. simpl.
  by rewrite <-app_assoc.
Qed.

(** A page within the limit: the count is announced if it was not yet, the
    chunk is delivered or buffered, and either the next page is requested or
    the session is closed. *)
Lemma resume_page (query : SearchQuery) (results : SearchResult) (c : Client) :
  quiet listeners ->
  _canceled c = false ->
  exceedsMaxResults this results = false ->
  let chunk := chunk_of results in
  let cursor := nextSearchAfter this chunk in
  let more := nextBatchAvailable this chunk && truthy cursor in
  let counted :=
    match _resultCount c with
    | None => [EvResultCount (total results)]
    | Some _ => []
    end in
  let buffered :=
    if _incremental this then _results c else _results c ++ chunk in
  let delivered :=
    if _incremental this then [EvResults chunk]
    else if more then [] else [EvResults buffered] in
  resume query (Resolved results) c =
  (Normal tt,
   mkClient false buffered
     (Some (default (total results) (_resultCount c)))
     (emitted c ++ counted ++ delivered ++ (if more then [] else [EvEnd]))
     (if more then sent c ++ [searchQuery this query cursor] else sent c)
     (if more
      then inflight c ++
           [mkFetch query
              (_searchFn (length (sent c)) (searchQuery this query cursor))]
      else inflight c)).
Proof.
  intros Hq Hc Hx chunk cursor more counted buffered delivered.
  subst counted buffered delivered more cursor chunk.
  destruct c as [canceled buffer count log reqs fetches].
  simpl in Hc. subst canceled.
  unfold _getBatch_resume, _getBatch_try.
  unfold try_catch, bind, read, write, await, ret. simpl. rewrite Hx.
  destruct count as [n|], (_incremental this); simpl;
    rewrite ?emit_quiet by done; simpl;
    destruct (nextBatchAvailable this (chunk_of results)
              && truthy (nextSearchAfter this (chunk_of results))); simpl;
    rewrite ?emit_quiet by done; simpl;
    rewrite ?emit_quiet by done; simpl;
    unfold _getBatch, set_emitted, set_inflight, set_sent; simpl;
    (f_equal; f_equal; rewrite <-?app_assoc, ?app_nil_r; done).
Qed.

Lemma settle_inflight (c : Client) (i : nat) (f : Fetch) :
  inflight c !! i = Some f ->
  step c (Settle i) =
  snd (resume (fetch_query f) (fetch_promise f)
         (set_inflight (delete i (inflight c)) c)).
Proof. intros Hi. simpl. by rewrite Hi. Qed.

Lemma settle_rejected (c : Client) (i : nat) (f : Fetch) (err : JsVal) :
  quiet listeners ->
  _canceled c = false ->
  inflight c !! i = Some f ->
  fetch_promise f = Rejected err ->
  step c (Settle i) =
  mkClient false (_results c) (_resultCount c)
    (emitted c ++ [EvError err; EvEnd]) (sent c) (delete i (inflight c)).
Proof.
  intros Hq Hc Hi Hf.
  rewrite (settle_inflight _ _ _ Hi), Hf, resume_rejected by done.
  destruct c; simpl in *. by subst.
Qed.

Lemma settle_exceeding (c : Client) (i : nat) (f : Fetch) (results : SearchResult) :
  quiet listeners ->
  _canceled c = false ->
  inflight c !! i = Some f ->
  fetch_promise f = Resolved results ->
  exceedsMaxResults this results = true ->
  step c (Settle i) =
  mkClient false (_results c) (_resultCount c)
    (emitted c ++
     [EvError (JError "Results size exceeds maximum allowed annotations");
      EvEnd])
    (sent c) (delete i (inflight c)).
Proof.
  intros Hq Hc Hi Hf Hx.
  rewrite (settle_inflight _ _ _ Hi), Hf, resume_exceeding by done.
  destruct c; simpl in *. by subst.
Qed.

Lemma settle_page (c : Client) (i : nat) (f : Fetch) (results : SearchResult) :
  quiet listeners ->
  _canceled c = false ->
  inflight c !! i = Some f ->
  fetch_promise f = Resolved results ->
  exceedsMaxResults this results = false ->
  let chunk := chunk_of results in
  let cursor := nextSearchAfter this chunk in
  let more := nextBatchAvailable this chunk && truthy cursor in
  let counted :=
    match _resultCount c with
    | None => [EvResultCount (total results)]
    | Some _ => []
    end in
  let buffered :=
    if _incremental this then _results c else _results c ++ chunk in
  let delivered :=
    if _incremental this then [EvResults chunk]
    else if more then [] else [EvResults buffered] in
  let request := searchQuery this (fetch_query f) cursor in
  step c (Settle i) =
  mkClient false buffered
    (Some (default (total results) (_resultCount c)))
    (emitted c ++ counted ++ delivered ++ (if more then [] else [EvEnd]))
    (if more then sent c ++ [request] else sent c)
    (if more
     then delete i (inflight c) ++
          [mkFetch (fetch_query f) (_searchFn (length (sent c)) request)]
     else delete i (inflight c)).
Proof.
  intros Hq Hc Hi Hf Hx chunk cursor more counted buffered delivered request.
  rewrite (settle_inflight _ _ _ Hi), Hf.
  by rewrite resume_page.
Qed.

(** Once nothing is in flight, nothing happens any more. *)
Lemma drain_idle (turns : nat) (c : Client) :
  inflight c = [] -> drain turns c = c.
Proof. intros Hi. destruct turns; simpl; [done|]. by rewrite Hi. Qed.

Lemma drain_add (turns more : nat) (c : Client) :
  drain (turns + more) c = drain more (drain turns c).
Proof.
  revert c. induction turns as [|turns IH]; intros c; [done|].
  destruct (inflight c) as [|f fs] eqn:Hi.
  - rewrite (drain_idle (S turns + more) c Hi), (drain_idle (S turns) c Hi).
    by rewrite (drain_idle more c Hi).
  - change (S turns + more)%nat with (S (turns + more)).
    simpl. rewrite Hi. apply IH.
Qed.

Lemma session_eq (c : Client) (query : SearchQuery) (turns : nat) :
  session _searchFn listeners this c query turns
  = drain turns (step c (CallGet query)).
Proof. reflexivity. Qed.

(** A session that is over stays as it is. *)
Lemma session_over (c : Client) (query : SearchQuery) (turns more : nat) :
  inflight (session _searchFn listeners this c query turns) = [] ->
  session _searchFn listeners this c query (turns + more)
  = session _searchFn listeners this c query turns.
Proof.
  rewrite !session_eq. intros Hover.
  by rewrite drain_add, drain_idle.
Qed.

Lemma drain_S (turns : nat) (c : Client) (f : Fetch) (fs : list Fetch) :
  inflight c = f :: fs ->
  drain (S turns) c = drain turns (step c (Settle 0)).
Proof. intros Hi. simpl. by rewrite Hi. Qed.

(** ** Cancellation *)

(** C5. [cancel()] emits one [end] on the spot.  From then on every fetch
    that was in flight is discarded when it settles, whether it resolved or
    was rejected and in whatever order: no event is emitted, no further page
    is requested, and the fetches in flight only drain away. *)
Theorem cancel_discards_inflight (c : Client) (schedule : list nat) :
  let c1 := step c CallCancel in
  let c2 := steps c1 (Settle <$> schedule) in
  _canceled c1 = true /\
  emitted c1 = emitted c ++ [EvEnd] /\
  sent c1 = sent c /\
  emitted c2 = emitted c1 /\
  sent c2 = sent c1 /\
  (length (inflight c2) <= length (inflight c1))%nat.
Proof.
  intros c1 c2.
  destruct (cancel_effect c) as (Hc & He & Hs & _).
  destruct (steps_settle_canceled schedule c1 Hc) as (_ & _ & _ & He' & Hs' & Hl).
  by repeat split.
Qed.

(** C6, as the code has it. [get] clears the buffered results and the result
    count and leaves [_canceled] alone; the flag belongs to the instance and
    only ever goes from [false] to [true].  So a [get] that follows a
    [cancel], whatever happened in between, starts a session on a canceled
    client: its fetches are discarded when they settle and nothing is
    emitted for it. *)
Theorem get_keeps_canceled
    (c : Client) (between : list Input) (query : SearchQuery)
    (schedule : list nat) (i : Input) :
  let c1 := step (steps (step c CallCancel) between) (CallGet query) in
  let c2 := steps c1 (Settle <$> schedule) in
  _canceled (step c (CallGet query)) = _canceled c /\
  _results (step c (CallGet query)) = [] /\
  _resultCount (step c (CallGet query)) = None /\
  implb (_canceled c) (_canceled (step c i)) = true /\
  _canceled c1 = true /\
  emitted c2 = emitted c1 /\
  sent c2 = sent c1.
Proof.
  intros c1 c2.
  assert (Hc1 : _canceled c1 = true).
  { subst c1. rewrite get_effect. simpl.
    apply steps_canceled. by destruct (cancel_effect c). }
  destruct (steps_settle_canceled schedule c1 Hc1) as (_ & _ & _ & He & Hs & _).
  repeat split; try done.
  destruct (_canceled c) eqn:Hc; [|done]. simpl.
  by apply canceled_monotonic.
Qed.

(** ** Failures *)

(** C8. A session whose fetch in flight is rejected, on a client that was
    not canceled: one [error] carrying the rejection and one [end] are
    emitted, and that is all, however long one waits; no request is sent
    again and nothing is left in flight. *)
Theorem rejection_ends_session (c : Client) (f : Fetch) (err : JsVal) (turns : nat) :
  quiet listeners ->
  _canceled c = false ->
  inflight c = [f] ->
  fetch_promise f = Rejected err ->
  let c' := drain (S turns) c in
  emitted c' = emitted c ++ [EvError err; EvEnd] /\
  sent c' = sent c /\
  inflight c' = [].
Proof.
  intros Hq Hc Hi Hf c'. subst c'.
  rewrite (drain_S _ _ _ _ Hi).
  rewrite (settle_rejected c 0 f err) by (by rewrite ?Hi).
  rewrite drain_idle; simpl; by rewrite ?Hi.
Qed.

(** ** The size limit *)

(** The limit holds for every total over a limit that is not zero. *)
Lemma maxResults_guard
    (c : Client) (f : Fetch) (results : SearchResult) (K : Z) (turns : nat) :
  quiet listeners ->
  _canceled c = false ->
  inflight c = [f] ->
  fetch_promise f = Resolved results ->
  _maxResults this = Some K ->
  K <> 0 ->
  K < total results ->
  let c' := drain (S turns) c in
  emitted c' =
    emitted c ++
    [EvError (JError "Results size exceeds maximum allowed annotations"); EvEnd] /\
  sent c' = sent c /\
  inflight c' = [].
Proof.
  intros Hq Hc Hi Hf HK HK0 Ht c'. subst c'.
  assert (Hx : exceedsMaxResults this results = true).
  { unfold exceedsMaxResults. rewrite HK. simpl.
    apply andb_true_iff. split; [apply negb_true_iff|]; lia. }
  rewrite (drain_S _ _ _ _ Hi).
  rewrite (settle_exceeding c 0 f results) by (by rewrite ?Hi).
  rewrite drain_idle; simpl; by rewrite ?Hi.
Qed.

Lemma maxResults_zero (results : SearchResult) :
  _maxResults this = Some 0 -> exceedsMaxResults this results = false.
Proof. intros HK. unfold exceedsMaxResults. by rewrite HK. Qed.

End Turns.

Lemma rejection_ends_session_witness :
  let c := step unreachable no_throw defaultOptions new_client (CallGet ∅) in
  let c' := drain unreachable no_throw defaultOptions 3 c in
  emitted c' = emitted c ++ [EvError (JError "Network error"); EvEnd] /\
  sent c' = sent c /\
  inflight c' = [].
Proof.
  apply (rejection_ends_session unreachable no_throw defaultOptions _
           (mkFetch ∅ (Rejected (JError "Network error")))).
  - intros log ev. reflexivity.
  - reflexivity.
  - reflexivity.
  - reflexivity.
Defined.

(** The flag set by [cancel] survives [get]: the new session is served its
    page and emits nothing. *)
Lemma canceled_survives_get :
  let c := steps three_items no_throw pages_of_two new_client
             [CallCancel; CallGet ∅] in
  _canceled c <> false /\
  inflight c <> [] /\
  events_since c (drain three_items no_throw pages_of_two 5 c) = [].
Proof. vm_compute. repeat split; discriminate. Qed.

(** C3 at [maxResults = 0]: the limit is ignored.  The page reports a total
    of 1, over the limit, and is delivered all the same. *)
Theorem maxResults_zero_is_ignored :
  emitted (session one_item no_throw
             (mkOptions 200 true true (Some 0) "created" "asc") new_client ∅ 5)
  = [EvResultCount 1; EvResults [ann 1]; EvEnd].
Proof. vm_compute. reflexivity. Qed.

Section Listeners.

Variable _searchFn : nat -> SearchQuery -> Outcome.
Variable listeners : list Event -> Event -> option JsVal.
Variable this : Options.

Abbreviation resume := (_getBatch_resume _searchFn listeners this).

(** ** Subscribers that throw *)

(** Whatever leaves the [try] block after the fetch resolved was thrown by
    a handler of the [resultCount] or [results] event just emitted, when the
    handlers of [error] and [end] return; the [catch] block then emits
    [error] and [end]. *)
Lemma thrown_in_try_is_caught
    (c c1 : Client) (query : SearchQuery) (results : SearchResult) (exn : JsVal) :
  (forall log err, listeners log (EvError err) = None) ->
  (forall log, listeners log EvEnd = None) ->
  _canceled c = false ->
  _getBatch_try _searchFn listeners this query (Resolved results) c
  = (Throw exn, c1) ->
  (exists log ev,
     emitted c1 = log ++ [ev] /\
     is_resultCount ev || is_results ev = true /\
     listeners log ev = Some exn) /\
  resume query (Resolved results) c
  = (Normal tt, set_emitted (emitted c1 ++ [EvError exn; EvEnd]) c1) /\
  resume query (Resolved results) c = resume query (Rejected exn) c1 /\
  sent c1 = sent c /\
  inflight c1 = inflight c.
Proof.
  intros Herr Hend Hc Htry.
  assert (Hcatch : forall c', _canceled c' = false ->
            _getBatch_catch listeners exn c'
            = (Normal tt, set_emitted (emitted c' ++ [EvError exn; EvEnd]) c')).
  { intros c' Hc'. unfold _getBatch_catch, bind, read, emit. simpl.
    rewrite Hc', Herr. simpl. rewrite Hend.
    unfold set_emitted. simpl. by rewrite <-app_assoc. }
  assert (Hc1 : _canceled c1 = false /\ sent c1 = sent c /\
                inflight c1 = inflight c /\
                exists log ev,
                  emitted c1 = log ++ [ev] /\
                  is_resultCount ev || is_results ev = true /\
                  listeners log ev = Some exn).
  { revert Htry.
    unfold _getBatch_try, bind, await, ret, read, write, emit, _getBatch.
    simpl. rewrite Hc.
    destruct (exceedsMaxResults this results);
      [rewrite Herr; simpl; by rewrite Hend|].
    destruct (_resultCount c) as [n|], (_incremental this); simpl;
      repeat match goal with
        | _ => rewrite Hend; simpl
        | |- context [match listeners ?l ?e with _ => _ end] =>
            let L := fresh "L" in destruct (listeners l e) eqn:L; simpl
        | |- context [if ?b then _ else _] => destruct b; simpl
        end;
      rewrite ?Hend; try done;
      intros Heq; inversion Heq; subst; clear Heq; simpl;
      (split; [done|]; split; [done|]; split; [done|];
       eexists _, _; split; [reflexivity|]; split; [reflexivity|eassumption]). }
  destruct Hc1 as (Hc1 & Hs & Hi & Hev).
  unfold _getBatch_resume at 1 2 3. unfold try_catch. rewrite Htry.
  unfold _getBatch_resume, _getBatch_try, try_catch, bind, await, throw.
  rewrite Hcatch by done. done.
Qed.

(** C10. A fetch resolves with a page within the size limit, on a client
    that is not canceled, and a handler throws [exn] during the emission of
    [resultCount], or, the handlers of [resultCount] having returned, during
    the emission of [results] (each page when incremental, the buffered
    whole on the last page otherwise); the handlers of [error] and [end]
    return.  Then [log] being the events up to and including the one whose
    handler threw, [_getBatch] completes normally, nothing reaches a caller,
    the client has emitted exactly [log], one [error] carrying [exn] and one
    [end], and no further page is requested.  The two events after [log]
    are those a rejection of the fetch with [exn] appends. *)
Theorem listener_failure_surfaces
    (c : Client) (query : SearchQuery) (results : SearchResult) (exn : JsVal)
    (log : list Event) :
  let chunk := chunk_of results in
  let more :=
    nextBatchAvailable this chunk && truthy (nextSearchAfter this chunk) in
  let counted :=
    match _resultCount c with
    | None => [EvResultCount (total results)]
    | Some _ => []
    end in
  let payload := if _incremental this then chunk else _results c ++ chunk in
  (forall log' err, listeners log' (EvError err) = None) ->
  (forall log', listeners log' EvEnd = None) ->
  _canceled c = false ->
  exceedsMaxResults this results = false ->
  ((_resultCount c = None /\
    listeners (emitted c) (EvResultCount (total results)) = Some exn /\
    log = emitted c ++ [EvResultCount (total results)])
   \/
   ((_resultCount c = None ->
     listeners (emitted c) (EvResultCount (total results)) = None) /\
    (_incremental this = true \/ more = false) /\
    listeners (emitted c ++ counted) (EvResults payload) = Some exn /\
    log = emitted c ++ counted ++ [EvResults payload])) ->
  fst (resume query (Resolved results) c) = Normal tt /\
  emitted (snd (resume query (Resolved results) c))
  = log ++ [EvError exn; EvEnd] /\
  sent (snd (resume query (Resolved results) c)) = sent c /\
  inflight (snd (resume query (Resolved results) c)) = inflight c /\
  emitted (snd (resume query (Rejected exn) c))
  = emitted c ++ [EvError exn; EvEnd].
Proof.
  intros chunk more counted payload Herr Hend Hc Hx Hthrown.
  subst payload counted more chunk.
  destruct c as [canceled buffer count events reqs fetches].
  simpl in Hc, Hthrown |- *. subst canceled.
  unfold _getBatch_resume, _getBatch_try, _getBatch_catch.
  unfold try_catch, bind, await, throw, ret, read, write, emit, _getBatch.
  simpl. rewrite Hx.
  destruct Hthrown as [(-> & Hrc & ->)|(Hrc & Hemits & Hres & ->)].
  - (* a handler of resultCount *)
    simpl. rewrite Hrc. simpl. rewrite Herr. simpl. rewrite Hend. simpl.
    rewrite Herr. simpl. rewrite Hend. simpl.
    by rewrite <-!app_assoc.
  - (* a handler of results *)
    destruct count as [n|]; simpl in Hres |- *;
      rewrite ?(Hrc eq_refl); simpl;
      (destruct (_incremental this) eqn:Hinc; simpl;
       [|destruct Hemits as [?|Hmore]; [done|]; rewrite Hmore; simpl]);
      rewrite <-?app_assoc in *; simpl in Hres |- *;
      rewrite ?app_nil_r in Hres;
      rewrite Hres; simpl; rewrite Herr; simpl; rewrite Hend; simpl;
      rewrite Herr; simpl; rewrite Hend; simpl;
      by rewrite <-?app_assoc.
Qed.

End Listeners.

Lemma listener_failure_surfaces_witness :
  let page := mkSearchResult 1 [ann 1] None in
  let exn := JError "handler failed" in
  (* a handler of resultCount throws *)
  emitted (snd (_getBatch_resume one_item throw_on_resultCount defaultOptions
                  ∅ (Resolved page) new_client))
  = [EvResultCount 1] ++ [EvError exn; EvEnd] /\
  (* a handler of results throws, incrementally *)
  emitted (snd (_getBatch_resume one_item throw_on_results defaultOptions
                  ∅ (Resolved page) new_client))
  = ([EvResultCount 1] ++ [EvResults [ann 1]]) ++ [EvError exn; EvEnd] /\
  (* a handler of results throws, in batch mode *)
  emitted (snd (_getBatch_resume one_item throw_on_results batch_defaults
                  ∅ (Resolved page) new_client))
  = ([EvResultCount 1] ++ [EvResults [ann 1]]) ++ [EvError exn; EvEnd].
Proof.
  split; [|split].
  - apply (listener_failure_surfaces one_item throw_on_resultCount
             defaultOptions new_client ∅ (mkSearchResult 1 [ann 1] None)
             (JError "handler failed") [EvResultCount 1]).
    + intros log err. reflexivity.
    + intros log. reflexivity.
    + reflexivity.
    + reflexivity.
    + left. repeat split; reflexivity.
  - apply (listener_failure_surfaces one_item throw_on_results
             defaultOptions new_client ∅ (mkSearchResult 1 [ann 1] None)
             (JError "handler failed")
             ([EvResultCount 1] ++ [EvResults [ann 1]])).
    + intros log err. reflexivity.
    + intros log. reflexivity.
    + reflexivity.
    + reflexivity.
    + right. split; [reflexivity|]. split; [by left|].
      split; reflexivity.
  - apply (listener_failure_surfaces one_item throw_on_results
             batch_defaults new_client ∅ (mkSearchResult 1 [ann 1] None)
             (JError "handler failed")
             ([EvResultCount 1] ++ [EvResults [ann 1]])).
    + intros log err. reflexivity.
    + intros log. reflexivity.
    + reflexivity.
    + reflexivity.
    + right. split; [reflexivity|]. split; [by right|].
      split; reflexivity.
Defined.

Section Paging.

Variable _searchFn : nat -> SearchQuery -> Outcome.
Variable listeners : list Event -> Event -> option JsVal.
Variable this : Options.

Abbreviation step := (step _searchFn listeners this).
Abbreviation drain := (drain _searchFn listeners this).
Abbreviation session := (session _searchFn listeners this).
Abbreviation resume := (_getBatch_resume _searchFn listeners this).

Lemma pagingDefaults_search_after :
  pagingDefaults this !! "search_after" = None.
Proof. reflexivity. Qed.



Lemma searchQuery_limit (query : SearchQuery) (cursor limit : JsVal) :
  query !! "limit" = Some limit ->
  searchQuery this query cursor !! "limit" = Some limit.
Proof.
  intros Hl. unfold searchQuery.
  destruct (truthy cursor).
  - rewrite lookup_insert_ne by done. by apply lookup_union_Some_l.
  - by apply lookup_union_Some_l.
Qed.



(** Whatever the subscribers do, only a full chunk with a cursor makes the
    client request another page. *)
Lemma resume_last_page (query : SearchQuery) (settled : Outcome) (c : Client) :
  (forall results,
     settled = Resolved results ->
     nextBatchAvailable this (chunk_of results)
     && truthy (nextSearchAfter this (chunk_of results)) = false) ->
  let c' := snd (resume query settled c) in
  sent c' = sent c /\ inflight c' = inflight c.
Proof.
  intros Hshort.
  unfold _getBatch_resume, _getBatch_try, _getBatch_catch.
  unfold try_catch, bind, await, throw, ret, read, write, emit, _getBatch.
  destruct settled as [results|err]; simpl.
  - rewrite (Hshort results eq_refl). simpl.
    destruct (_canceled c) eqn:Hc; simpl; [done|].
    destruct (exceedsMaxResults this results), (_resultCount c),
      (_incremental this); simpl;
      repeat match goal with
        | |- context [match listeners ?l ?e with _ => _ end] =>
            let L := fresh "L" in destruct (listeners l e) eqn:L; simpl
        | |- context [if ?b then _ else _] => destruct b eqn:?; simpl
        end; try done; simpl in *; congruence.
  - destruct (_canceled c) eqn:Hc; simpl; [done|].
    repeat match goal with
      | |- context [match listeners ?l ?e with _ => _ end] =>
          let L := fresh "L" in destruct (listeners l e) eqn:L; simpl
      end; done.
Qed.

(** C9, as the code has it.  The caller's [limit] replaces the engine's in
    every request, the first and any later one, while a chunk is still full
    only at [_chunkSize] annotations, replies counted.  So when the caller's
    limit is below [_chunkSize] and the first page has no more annotations,
    rows and replies together, than the limit asks for, the first request
    of the session, which is the caller's query over the engine's defaults,
    stays its only one, however many annotations match. *)
Theorem caller_limit_stops_paging
    (c0 : Client) (query : SearchQuery) (limit : Z) (turns : nat) :
  inflight c0 = [] ->
  query !! "limit" = Some (JNum limit) ->
  limit < _chunkSize this ->
  (forall results,
     _searchFn (length (sent c0)) (searchQuery this query JUndefined)
     = Resolved results ->
     Z.of_nat (length (rows results ++ default [] (replies results)))
     <= Z.max 0 limit) ->
  (forall cursor,
     searchQuery this query cursor !! "limit" = Some (JNum limit)) /\
  exists request,
    sent (session c0 query turns) = sent c0 ++ [request] /\
    request = query ∪ pagingDefaults this /\
    request !! "limit" = Some (JNum limit).
Proof.
  intros Hidle Hl Hlt Hh.
  split; [intros cursor; by apply searchQuery_limit|].
  exists (searchQuery this query JUndefined).
  split; [|split; [done|by apply searchQuery_limit]].
  rewrite session_eq, get_effect.
  destruct turns as [|turns]; [done|].
  rewrite Hidle. simpl.
  match goal with
  | |- context [_getBatch_resume _ _ _ ?q ?o ?c] =>
      destruct (resume_last_page q o c) as [Hs Hi]
  end.
  { intros results Hres.
    pose proof (Hh results Hres) as Hlen. fold (chunk_of results) in Hlen.
    destruct (nextBatchAvailable this (chunk_of results)) eqn:Hfull; [|done].
    apply Z.eqb_eq in Hfull. simpl.
    destruct (chunk_of results) as [|a chunk]; [done|].
    simpl in Hlen, Hfull. lia. }
  rewrite drain_idle; [by rewrite Hs|by rewrite Hi].
Qed.

End Paging.


Example three_items_limit_one :
  let c := session three_items no_throw pages_of_two new_client
             {[ "limit" := JNum 1 ]} 5 in
  emitted c = [EvResultCount 3; EvResults [ann 1]; EvEnd] /\
  length (sent c) = 1%nat.
Proof. vm_compute. done. Qed.

Lemma caller_limit_stops_paging_witness :
  let query : SearchQuery := {[ "limit" := JNum 2 ]} in
  exists request,
    sent (session row_and_reply no_throw pages_of_three new_client query 5)
    = sent new_client ++ [request] /\
    request = query ∪ pagingDefaults pages_of_three /\
    request !! "limit" = Some (JNum 2).
Proof.
  destruct (caller_limit_stops_paging row_and_reply no_throw pages_of_three
              new_client {[ "limit" := JNum 2 ]} 2 5) as [_ H].
  - reflexivity.
  - reflexivity.
  - reflexivity.
  - intros results [= <-]. simpl. lia.
  - exact H.
Defined.

(** With [_separate_replies] the rows honour the caller's limit and the
    replies come on top: one row and one reply fill a chunk of two, the last
    reply gives a cursor, and a second page is requested although the
    caller's limit, 1, is below [_chunkSize], 2. *)
Lemma replies_fill_the_chunk :
  let query : SearchQuery := {[ "limit" := JNum 1 ]} in
  let c := session row_and_reply no_throw pages_of_two new_client query 1 in
  query !! "limit" = Some (JNum 1) /\
  1 < _chunkSize pages_of_two /\
  Z.of_nat (length (rows (mkSearchResult 5 [ann 1] (Some [ann 5])))) <= 1 /\
  length (sent c) = 2%nat /\
  (fun request : SearchQuery =>
     (request !! "limit", request !! "search_after")) <$> sent c
  = [(Some (JNum 1), None); (Some (JNum 1), Some (JNum 5))] /\
  ~ (exists request, sent c = sent new_client ++ [request]).
Proof.
  split; [reflexivity|]. split; [reflexivity|]. split; [simpl; lia|].
  split; [vm_compute; reflexivity|]. split; [vm_compute; reflexivity|].
  intros [request Heq]. apply (f_equal length) in Heq.
  vm_compute in Heq. discriminate Heq.
Qed.

(** ** Whole sessions *)

Section Sessions.

Variable _searchFn : nat -> SearchQuery -> Outcome.
Variable listeners : list Event -> Event -> option JsVal.
Variable this : Options.
Hypothesis Hquiet : quiet listeners.

Abbreviation step := (step _searchFn listeners this).
Abbreviation drain := (drain _searchFn listeners this).
Abbreviation session := (session _searchFn listeners this).


(** What one more turn does to a client that was not canceled: the flag
    stays clear, a count that was recorded stays recorded, and the log
    grows. *)
Lemma settle_grows (c : Client) :
  _canceled c = false ->
  exists more,
    emitted (step c (Settle 0)) = emitted c ++ more /\
    _canceled (step c (Settle 0)) = false /\
    (forall count, _resultCount c = Some count ->
       _resultCount (step c (Settle 0)) = Some count /\ no_resultCount more).
Proof.
  intros Hc.
  destruct (inflight c !! 0%nat) as [f|] eqn:Hi.
  - destruct (fetch_promise f) as [results|err] eqn:Hf.
    + destruct (exceedsMaxResults this results) eqn:Hx.
      * rewrite (settle_exceeding _ _ _ c 0 f results) by done. simpl.
        eexists. split; [done|]. split; [done|].
        intros count Hn. split; [done|]. by repeat constructor.
      * rewrite (settle_page _ _ _ c 0 f results) by done. simpl.
        eexists. split; [done|]. split; [done|].
        intros count Hn. rewrite Hn. simpl. split; [done|].
        destruct (_incremental this),
          (nextBatchAvailable this (chunk_of results)
           && truthy (nextSearchAfter this (chunk_of results)));
          by repeat constructor.
    + rewrite (settle_rejected _ _ _ c 0 f err) by done. simpl.
      eexists. split; [done|]. split; [done|].
      intros count Hn. split; [done|]. by repeat constructor.
  - exists []. simpl. rewrite Hi, app_nil_r. split; [done|]. split; [done|].
    intros count Hn. split; [done|]. constructor.
Qed.

Lemma drain_no_recount (turns : nat) (c : Client) (count : Z) :
  _canceled c = false ->
  _resultCount c = Some count ->
  exists more,
    emitted (drain turns c) = emitted c ++ more /\ no_resultCount more.
Proof.
  revert c. induction turns as [|turns IH]; intros c Hc Hn.
  - exists []. simpl. rewrite app_nil_r. split; [done|constructor].
  - destruct (inflight c) as [|f fs] eqn:Hi.
    + exists []. rewrite drain_idle by done. rewrite app_nil_r.
      split; [done|constructor].
    + rewrite (drain_S _ _ _ _ _ _ _ Hi).
      destruct (settle_grows c Hc) as (more & He & Hc' & Hn').
      destruct (Hn' count Hn) as [Hn'' Hmore].
      destruct (IH _ Hc' Hn'') as (more' & He' & Hmore').
      exists (more ++ more'). rewrite He', He, <-app_assoc.
      split; [done|]. by apply Forall_app.
Qed.

(** C7. A session whose first page is processed: the first fetch resolves,
    within the size limit, on a client that was not canceled.  From the
    first turn on, the first event of the session is [resultCount] with the
    [total] of that page, and no other [resultCount] follows, whatever
    totals later pages report. *)
Theorem resultCount_once
    (c0 : Client) (query : SearchQuery) (first : SearchResult) (turns : nat) :
  _canceled c0 = false ->
  inflight c0 = [] ->
  _searchFn (length (sent c0)) (searchQuery this query JUndefined)
  = Resolved first ->
  exceedsMaxResults this first = false ->
  exists rest,
    events_since c0 (session c0 query (S turns))
    = EvResultCount (total first) :: rest /\
    no_resultCount rest.
Proof.
  intros Hc Hidle Hfirst Hx.
  rewrite session_eq, get_effect, Hidle, Hfirst. simpl app.
  match goal with |- context [drain _ ?c] => set (c1 := c) end.
  rewrite (drain_S _ _ _ _ c1 _ _ eq_refl).
  rewrite (settle_page _ _ _ c1 0 _ first Hquiet Hc eq_refl eq_refl Hx).
  simpl.
  match goal with |- context [drain _ ?c] => set (c2 := c) end.
  destruct (drain_no_recount turns c2 (total first) eq_refl eq_refl)
    as (more & He & Hmore).
  unfold events_since. rewrite He. simpl.
  rewrite <-!app_assoc, drop_app_length. simpl.
  eexists. split; [done|].
  repeat (apply Forall_app; split); try done;
    destruct (_incremental this),
      (nextBatchAvailable this (chunk_of first)
       && truthy (nextSearchAfter this (chunk_of first)));
    by repeat constructor.
Qed.

(** *** The order of events *)

Abbreviation running := (running _searchFn this).
Abbreviation ended := (ended _searchFn this).
Abbreviation served := (served _searchFn).
Abbreviation processable := (processable this).

Lemma served_app (k : nat) (requests requests' : list SearchQuery) :
  served k (requests ++ requests')
  = served k requests ++ served (k + length requests) requests'.
Proof.
  revert k. induction requests as [|r requests IH]; intros k; simpl.
  - by rewrite Nat.add_0_r.
  - rewrite IH. by rewrite Nat.add_succ_r.
Qed.

Lemma filter_all {A} (p : A -> bool) (l : list A) :
  forallb p l = true -> List.filter p l = l.
Proof.
  induction l as [|x l IH]; simpl; [done|].
  intros [Hx Hl]%andb_true_iff. rewrite Hx. by rewrite IH.
Qed.

(** The pages processed, when all requests but the last were answered with
    a page the client processed. *)
Lemma pages_processed_last
    (c0 c : Client) (requests : list SearchQuery) (request : SearchQuery) :
  sent c = sent c0 ++ requests ++ [request] ->
  forallb processable (served (length (sent c0)) requests) = true ->
  pages_processed _searchFn this c0 c
  = (length requests +
     if processable (_searchFn (length (sent c0) + length requests) request)
     then 1 else 0)%nat.
Proof.
  intros Hs Hall. unfold pages_processed, requests_since.
  rewrite Hs, drop_app_length, served_app, List.filter_app, length_app.
  rewrite filter_all by done.
  assert (Hlen : forall k l, length (served k l) = length l).
  { intros k l. revert k. induction l as [|x l IH]; intros k; simpl; auto. }
  rewrite Hlen. simpl.
  by destruct (processable _).
Qed.

Lemma get_running (c0 : Client) (query : SearchQuery) :
  _canceled c0 = false ->
  inflight c0 = [] ->
  running c0 query (step c0 (CallGet query)).
Proof.
  intros Hc Hidle. rewrite get_effect, Hidle. split; [done|].
  exists [], (searchQuery this query JUndefined), [], []. simpl.
  rewrite Nat.add_0_r, app_nil_r.
  split; [done|]. split; [done|]. split; [done|]. split; [done|].
  split; [by left|]. split; [constructor|]. split; [by destruct (_incremental this)|done].
Qed.

Lemma ended_intro
    (c0 c : Client) (requests : list SearchQuery) (request : SearchQuery)
    (rc rs term : list Event) :
  inflight c = [] ->
  sent c = sent c0 ++ requests ++ [request] ->
  forallb processable (served (length (sent c0)) requests) = true ->
  emitted c = emitted c0 ++ rc ++ rs ++ term ->
  at_most_one_resultCount rc ->
  only_results rs ->
  terminal term ->
  one_per_page_or_one_unless_error (_incremental this)
    (length requests +
     if processable (_searchFn (length (sent c0) + length requests) request)
     then 1 else 0)%nat rs term ->
  ended c0 c.
Proof.
  intros Hi Hs Hall He Hrc Hrs Hterm Hcount. split; [done|].
  exists rc, rs, term. unfold events_since.
  rewrite He, drop_app_length.
  by rewrite (pages_processed_last c0 c requests request).
Qed.

Lemma running_step (c0 : Client) (query : SearchQuery) (c : Client) :
  running c0 query c ->
  running c0 query (step c (Settle 0)) \/ ended c0 (step c (Settle 0)).
Proof.
  intros (Hc & requests & request & rc & rs & Hs & Hi & Hall & He & Hrc
          & Hrs & Hlen & Hn).
  set (f := mkFetch query
              (_searchFn (length (sent c0) + length requests) request)) in *.
  assert (Hi0 : inflight c !! 0%nat = Some f) by by rewrite Hi.
  assert (Hnone : _incremental this = false -> rs = []).
  { intros Hb. rewrite Hb in Hlen. by apply nil_length_inv. }
  destruct (fetch_promise f) as [results|err] eqn:Hf; simpl in Hf.
  - destruct (exceedsMaxResults this results) eqn:Hx.
    + (* over the size limit *)
      right. rewrite (settle_exceeding _ _ _ c 0 f results) by done.
      eapply (ended_intro _ _ requests request rc rs); simpl; try done.
      * by rewrite Hi.
      * by rewrite He, <-!app_assoc.
      * right. eauto.
      * rewrite Hf. simpl. rewrite Hx. simpl.
        unfold one_per_page_or_one_unless_error. simpl.
        destruct (_incremental this) eqn:Hb; [lia|by apply Hnone].
    + (* a page *)
      rewrite (settle_page _ _ _ c 0 f results) by done. simpl.
      set (chunk := chunk_of results).
      set (cursor := nextSearchAfter this chunk).
      assert (Hshape : exists rc' rs',
                 rc ++ rs
                 ++ match _resultCount c with
                    | None => [EvResultCount (total results)]
                    | Some _ => []
                    end = rc' ++ rs' /\
                 at_most_one_resultCount rc' /\ rs' = rs).
      { destruct (_resultCount c) as [n|].
        - exists rc, rs. by rewrite app_nil_r.
        - destruct (Hn eq_refl) as [-> ->].
          exists [EvResultCount (total results)], []. simpl.
          split; [done|]. split; [right; eauto|done]. }
      destruct Hshape as (rc' & rs' & Hshape & Hrc' & ->).
      assert (Hproc : processable
                (_searchFn (length (sent c0) + length requests) request)
              = true).
      { rewrite Hf. simpl. by rewrite Hx. }
      destruct (nextBatchAvailable this chunk && truthy cursor) eqn:Hmore.
      * (* and the next one is requested *)
        left. split; [done|].
        exists (requests ++ [request]),
               (searchQuery this query cursor), rc',
               (rs ++ if _incremental this then [EvResults chunk] else []).
        simpl. rewrite Hi. simpl.
        split; [by rewrite Hs, <-!app_assoc|].
        split.
        { do 3 f_equal. rewrite Hs, !length_app. simpl. lia. }
        split.
        { rewrite served_app, forallb_app, Hall. simpl.
          by rewrite Hproc. }
        split.
        { rewrite He, app_nil_r, <-!app_assoc.
          f_equal. rewrite !app_assoc. f_equal.
          by rewrite <-app_assoc. }
        split; [done|]. split.
        { apply Forall_app. split; [done|].
          destruct (_incremental this); by repeat constructor. }
        split; [|done].
        rewrite !length_app, Hlen.
        destruct (_incremental this); simpl; lia.
      * (* and the session is closed *)
        right.
        eapply (ended_intro _ _ requests request rc'
                  (rs ++ [EvResults
                            (if _incremental this then chunk
                             else _results c ++ chunk)])
                  [EvEnd]); simpl; try done.
        -- by rewrite Hi.
        -- rewrite He, <-!app_assoc.
           f_equal. rewrite !app_assoc. rewrite <-(app_assoc rc rs), Hshape.
           rewrite <-!app_assoc. do 2 f_equal.
           by destruct (_incremental this).
        -- apply Forall_app. split; [done|]. by repeat constructor.
        -- by left.
        -- rewrite Hproc.
           unfold one_per_page_or_one_unless_error. simpl.
           rewrite length_app, Hlen.
           destruct (_incremental this); simpl; lia.
  - (* rejected *)
    right. rewrite (settle_rejected _ _ _ c 0 f err) by done.
    eapply (ended_intro _ _ requests request rc rs); simpl; try done.
    + by rewrite Hi.
    + by rewrite He, <-!app_assoc.
    + right. eauto.
    + rewrite Hf. simpl.
      unfold one_per_page_or_one_unless_error. simpl.
      destruct (_incremental this) eqn:Hb; [lia|by apply Hnone].
Qed.

Lemma ended_drain (turns : nat) (c0 c : Client) :
  ended c0 c -> ended c0 (drain turns c).
Proof. intros Hended. rewrite drain_idle; [done|]. by destruct Hended. Qed.

Lemma running_drain (turns : nat) (c0 : Client) (query : SearchQuery) (c : Client) :
  running c0 query c ->
  running c0 query (drain turns c) \/ ended c0 (drain turns c).
Proof.
  revert c. induction turns as [|turns IH]; intros c Hrun; [by left|].
  destruct Hrun as [Hc Hrun'].
  destruct Hrun' as (requests & request & rc & rs & Hs & Hi & Hrest).
  rewrite (drain_S _ _ _ _ _ _ _ Hi).
  destruct (running_step c0 query c) as [Hrun|Hended].
  - split; [done|]. by exists requests, request, rc, rs.
  - by apply IH.
  - right. by apply ended_drain.
Qed.

(** C1, as the code has it. A session started by [get] on a client that is
    not canceled and has nothing in flight, and left alone for any number of
    turns.  Either it is over, and its events are in the fixed order: at
    most one [resultCount], then [results] events, then [end], with [error]
    just before it if at all; the [results] events are one per page
    processed when incremental, and otherwise exactly one when the session
    ends without an error and none when it ends with one.  Or a fetch is
    still in flight and the events so far are the beginning of that
    order, with no [error] or [end] yet. *)
Theorem session_order (c0 : Client) (query : SearchQuery) (turns : nat) :
  _canceled c0 = false ->
  inflight c0 = [] ->
  let c := session c0 query turns in
  (inflight c = [] /\
   fixed_order
     (one_per_page_or_one_unless_error (_incremental this)
        (pages_processed _searchFn this c0 c))
     (events_since c0 c))
  \/
  (inflight c <> [] /\
   exists rc rs,
     events_since c0 c = rc ++ rs /\
     at_most_one_resultCount rc /\
     only_results rs).
Proof.
  intros Hc Hidle c. subst c. rewrite session_eq.
  destruct (running_drain turns c0 query _ (get_running c0 query Hc Hidle))
    as [Hrun|Hended]; [right|by left].
  destruct Hrun as (_ & requests & request & rc & rs & _ & Hi & _ & He
                    & Hrc & Hrs & _).
  split; [by rewrite Hi|].
  exists rc, rs. unfold events_since. by rewrite He, drop_app_length.
Qed.

End Sessions.

Lemma session_order_witness :
  let c := session three_items no_throw pages_of_two new_client ∅ 5 in
  inflight c = [] /\
  pages_processed three_items pages_of_two new_client c = 2%nat /\
  ((inflight c = [] /\
   fixed_order
     (one_per_page_or_one_unless_error true
        (pages_processed three_items pages_of_two new_client c))
     (events_since new_client c))
  \/
  (inflight c <> [] /\
   exists rc rs,
     events_since new_client c = rc ++ rs /\
     at_most_one_resultCount rc /\
     only_results rs)).
Proof.
  split; [reflexivity|]. split; [vm_compute; reflexivity|].
  apply (session_order three_items no_throw pages_of_two).
  - intros log ev. reflexivity.
  - reflexivity.
  - reflexivity.
Defined.

Lemma resultCount_once_witness :
  exists rest,
    events_since new_client
      (session three_items no_throw pages_of_two new_client ∅ 3)
    = EvResultCount 3 :: rest /\
    no_resultCount rest.
Proof.
  apply (resultCount_once three_items no_throw pages_of_two
           (fun _ _ => eq_refl) new_client ∅
           (mkSearchResult 3 [ann 1; ann 2] None) 2).
  - reflexivity.
  - reflexivity.
  - reflexivity.
  - reflexivity.
Defined.

(** In batch mode a session whose first fetch is rejected emits [error] and
    [end] and no [results] event at all, not one. *)
Lemma batch_error_has_no_results :
  let this := mkOptions 200 true false None "created" "asc" in
  let c := session unreachable no_throw this new_client ∅ 5 in
  inflight c = [] /\
  ~ fixed_order
      (one_per_page_or_one false (pages_processed unreachable this new_client c))
      (events_since new_client c).
Proof.
  split; [reflexivity|].
  intros (rc & rs & term & Heq & Hrc & Hrs & Hterm & Hcount).
  change (events_since _ _)
    with [EvError (JError "Network error"); EvEnd] in Heq.
  unfold one_per_page_or_one in Hcount.
  destruct rs as [|r [|r' rs]]; try discriminate Hcount.
  apply Forall_inv in Hrs.
  destruct Hrc as [->|[count ->]]; simpl in Heq.
  - injection Heq as <- _. discriminate Hrs.
  - discriminate Heq.
Qed.

(** ** Incremental and batch delivery *)

Section Modes.

Variable _searchFn : nat -> SearchQuery -> Outcome.
Variable listeners : list Event -> Event -> option JsVal.
Variable this : Options.
Hypothesis Hquiet : quiet listeners.

Abbreviation incrementally := (with_incremental true this).
Abbreviation in_batch := (with_incremental false this).

Lemma results_payloads_app (log log' : list Event) :
  results_payloads (log ++ log') = results_payloads log ++ results_payloads log'.
Proof.
  induction log as [|ev log IH]; simpl; [done|].
  destruct ev; simpl; by rewrite ?IH.
Qed.

Lemma lockstep_get (c0 : Client) (query : SearchQuery) :
  _canceled c0 = false ->
  inflight c0 = [] ->
  lockstep c0
    (step _searchFn listeners incrementally c0 (CallGet query))
    (step _searchFn listeners in_batch c0 (CallGet query)).
Proof.
  intros Hc Hidle. rewrite !get_effect, Hidle. simpl.
  repeat (split; [done|]).
  exists [], []. rewrite !app_nil_r.
  split; [done|]. split; [done|]. left. eauto.
Qed.

Lemma existsb_error_app (log log' : list Event) :
  existsb is_error (log ++ log') = existsb is_error log || existsb is_error log'.
Proof. apply existsb_app. Qed.

Lemma lockstep_step (c0 ci cb : Client) (f : Fetch) :
  lockstep c0 ci cb ->
  inflight cb = [f] ->
  lockstep c0
    (step _searchFn listeners incrementally ci (Settle 0))
    (step _searchFn listeners in_batch cb (Settle 0)).
Proof.
  intros (Hci & Hcb & Hs & Hi & Hn & li & lb & Hei & Heb & Hlog) Hf.
  destruct Hlog as [(_ & Hpb & Herr & Hbuf)|[Hnil _]]; [|congruence].
  assert (Hii : inflight ci !! 0%nat = Some f) by by rewrite Hi, Hf.
  assert (Hib : inflight cb !! 0%nat = Some f) by by rewrite Hf.
  destruct (fetch_promise f) as [results|err] eqn:Hp.
  - destruct (exceedsMaxResults this results) eqn:Hx.
    + (* over the size limit, for both *)
      rewrite (settle_exceeding _ _ incrementally ci 0 f results) by done.
      rewrite (settle_exceeding _ _ in_batch cb 0 f results) by done.
      unfold lockstep. simpl. rewrite Hi, Hf. simpl.
      repeat (split; [done|]).
      eexists (li ++ _), (lb ++ _).
      split; [by rewrite Hei, <-app_assoc|].
      split; [by rewrite Heb, <-app_assoc|].
      right. split; [done|].
      rewrite existsb_error_app, results_payloads_app, Hpb. simpl.
      by rewrite orb_true_r.
    + (* a page *)
      rewrite (settle_page _ _ incrementally ci 0 f results) by done.
      rewrite (settle_page _ _ in_batch cb 0 f results) by done.
      cbn [_incremental with_incremental].
      change (nextBatchAvailable incrementally) with (nextBatchAvailable this).
      change (nextBatchAvailable in_batch) with (nextBatchAvailable this).
      change (nextSearchAfter incrementally) with (nextSearchAfter this).
      change (nextSearchAfter in_batch) with (nextSearchAfter this).
      change (searchQuery incrementally) with (searchQuery this).
      change (searchQuery in_batch) with (searchQuery this).
      set (chunk := chunk_of results).
      set (more := nextBatchAvailable this chunk
                   && truthy (nextSearchAfter this chunk)).
      unfold lockstep. simpl. rewrite Hi, Hf, Hs, Hn. simpl.
      set (counted := match _resultCount cb with
                      | Some _ => []
                      | None => [EvResultCount (total results)]
                      end).
      assert (Hcounted : results_payloads counted = []
                         /\ existsb is_error counted = false).
      { subst counted. by destruct (_resultCount cb). }
      destruct Hcounted as [Hcp Hce].
      repeat (split; [done|]).
      eexists (li ++ _), (lb ++ _).
      split; [by rewrite Hei, <-app_assoc|].
      split; [by rewrite Heb, <-app_assoc|].
      destruct more; [left|right].
      * split; [eauto|].
        rewrite !results_payloads_app, !existsb_error_app, Hpb, Hcp, Herr, Hce.
        simpl. split; [done|]. split; [done|].
        rewrite concat_app. simpl. by rewrite app_nil_r, Hbuf.
      * split; [done|].
        rewrite !results_payloads_app, !existsb_error_app, Hpb, Hcp, Herr, Hce.
        simpl. rewrite concat_app. simpl. by rewrite app_nil_r, Hbuf.
  - (* rejected, for both *)
    rewrite (settle_rejected _ _ incrementally ci 0 f err) by done.
    rewrite (settle_rejected _ _ in_batch cb 0 f err) by done.
    unfold lockstep. simpl. rewrite Hi, Hf. simpl.
    repeat (split; [done|]).
    eexists (li ++ _), (lb ++ _).
    split; [by rewrite Hei, <-app_assoc|].
    split; [by rewrite Heb, <-app_assoc|].
    right. split; [done|].
    rewrite existsb_error_app, results_payloads_app, Hpb. simpl.
    by rewrite orb_true_r.
Qed.

Lemma lockstep_drain (turns : nat) (c0 ci cb : Client) :
  lockstep c0 ci cb ->
  lockstep c0
    (drain _searchFn listeners incrementally turns ci)
    (drain _searchFn listeners in_batch turns cb).
Proof.
  revert ci cb. induction turns as [|turns IH]; intros ci cb Hl; [done|].
  pose proof Hl as (_ & _ & _ & Hi & _ & li & lb & _ & _ & Hlog).
  destruct Hlog as [([f Hf] & _)|[Hnil _]].
  - rewrite (drain_S _ _ _ _ cb f [] Hf).
    rewrite (drain_S _ _ _ _ ci f []) by by rewrite Hi.
    by apply IH, (lockstep_step c0 ci cb f).
  - rewrite !drain_idle; [done|done|by rewrite Hi].
Qed.

(** C2, as the code has it.  One session, run once incrementally and once
    in batch mode, all other options, the query, the data and the number of
    turns being the same.  The [results] events of the batch run are: one, carrying the
    concatenation, in order, of the payloads of all [results] events of the
    incremental run, once the session is over and did not end with an
    error; and none otherwise. *)
Theorem incremental_equals_batch (c0 : Client) (query : SearchQuery) (turns : nat) :
  _canceled c0 = false ->
  inflight c0 = [] ->
  let ci := session _searchFn listeners incrementally c0 query turns in
  let cb := session _searchFn listeners in_batch c0 query turns in
  let streamed := concat (results_payloads (events_since c0 ci)) in
  let completed :=
    match inflight cb with
    | [] => negb (existsb is_error (events_since c0 cb))
    | _ :: _ => false
    end in
  results_payloads (events_since c0 cb)
  = if completed then [streamed] else [].
Proof.
  intros Hc Hidle ci cb streamed completed.
  subst ci cb streamed completed. rewrite !session_eq.
  destruct (lockstep_drain turns c0 _ _ (lockstep_get c0 query Hc Hidle))
    as (_ & _ & _ & _ & _ & li & lb & Hei & Heb & Hlog).
  unfold events_since. rewrite Hei, Heb, !drop_app_length.
  destruct Hlog as [([f Hf] & Hpb & _)|[Hnil Hpb]].
  - by rewrite Hf.
  - rewrite Hnil, Hpb. by destruct (existsb is_error lb).
Qed.

End Modes.

(** A first page of two is served and the second fetch is rejected: the
    incremental run has delivered the first page, and the batch run, which
    had only buffered it, emits no [results] event at all. *)
Lemma batch_drops_pages_before_error :
  let ci := session fails_on_second no_throw
              (with_incremental true pages_of_two) new_client ∅ 5 in
  let cb := session fails_on_second no_throw
              (with_incremental false pages_of_two) new_client ∅ 5 in
  inflight ci = [] /\
  inflight cb = [] /\
  results_payloads (events_since new_client ci) = [[ann 1; ann 2]] /\
  results_payloads (events_since new_client cb) = [] /\
  results_payloads (events_since new_client cb)
  <> [concat (results_payloads (events_since new_client ci))].
Proof.
  split; [reflexivity|]. split; [reflexivity|].
  split; [vm_compute; reflexivity|].
  assert (Hb : results_payloads
                 (events_since new_client
                    (session fails_on_second no_throw
                       (with_incremental false pages_of_two) new_client ∅ 5))
               = []) by (vm_compute; reflexivity).
  split; [exact Hb|]. rewrite Hb. discriminate.
Qed.

Lemma incremental_equals_batch_witness :
  let ci := session three_items no_throw (with_incremental true pages_of_two)
              new_client ∅ 5 in
  let cb := session three_items no_throw (with_incremental false pages_of_two)
              new_client ∅ 5 in
  results_payloads (events_since new_client ci) = [[ann 1; ann 2]; [ann 3]] /\
  inflight cb = [] /\
  existsb is_error (events_since new_client cb) = false /\
  results_payloads (events_since new_client cb)
  = if match inflight cb with
       | [] => negb (existsb is_error (events_since new_client cb))
       | _ :: _ => false
       end
    then [concat (results_payloads (events_since new_client ci))]
    else [].
Proof.
  split; [vm_compute; reflexivity|].
  split; [vm_compute; reflexivity|].
  split; [vm_compute; reflexivity|].
  apply (incremental_equals_batch three_items no_throw pages_of_two).
  - intros log ev. reflexivity.
  - reflexivity.
  - reflexivity.
Defined.

(** * Further properties of the client *)

Section Edges.

Variable _searchFn : nat -> SearchQuery -> Outcome.
Variable listeners : list Event -> Event -> option JsVal.
Variable this : Options.

Abbreviation step := (step _searchFn listeners this).
Abbreviation steps := (steps _searchFn listeners this).
Abbreviation drain := (drain _searchFn listeners this).
Abbreviation resume := (_getBatch_resume _searchFn listeners this).

(** A page over the size limit ends the session, wherever it comes. *)
Lemma maxResults_guard_any
    (c : Client) (f : Fetch) (results : SearchResult) (turns : nat) :
  quiet listeners ->
  _canceled c = false ->
  inflight c = [f] ->
  fetch_promise f = Resolved results ->
  exceedsMaxResults this results = true ->
  emitted (drain (S turns) c) =
    emitted c ++
    [EvError (JError "Results size exceeds maximum allowed annotations"); EvEnd] /\
  sent (drain (S turns) c) = sent c /\
  inflight (drain (S turns) c) = [].
Proof.
  intros Hq Hc Hi Hf Hx.
  rewrite (drain_S _ _ _ _ _ _ _ Hi).
  rewrite (settle_exceeding _ _ _ c 0 f results) by (by rewrite ?Hi).
  rewrite drain_idle; simpl; by rewrite ?Hi.
Qed.

(** ** Calling [cancel] again *)

(** X1. [cancel] has no memory of having been called: every call emits one
    more [end], whatever the handlers do, and changes nothing else but the
    flag, which is set from the first call on.  What a handler of [end]
    throws goes to the caller of [cancel], after the flag was set. *)
Theorem cancel_again (c : Client) (n : nat) :
  let c' := steps c (replicate n CallCancel) in
  emitted c' = emitted c ++ replicate n EvEnd /\
  _canceled c' = match n with O => _canceled c | S _ => true end /\
  sent c' = sent c /\
  inflight c' = inflight c /\
  fst (cancel listeners c)
  = match listeners (emitted c) EvEnd with
    | Some exn => Throw exn
    | None => Normal tt
    end /\
  _canceled (snd (cancel listeners c)) = true.
Proof.
  intros c'. subst c'.
  assert (Hn : forall n c,
             emitted (steps c (replicate n CallCancel))
             = emitted c ++ replicate n EvEnd /\
             _canceled (steps c (replicate n CallCancel))
             = match n with O => _canceled c | S _ => true end /\
             sent (steps c (replicate n CallCancel)) = sent c /\
             inflight (steps c (replicate n CallCancel)) = inflight c).
  { clear. intros n. induction n as [|n IH]; intros c.
    - simpl. by rewrite app_nil_r.
    - change (replicate (S n) CallCancel)
        with (CallCancel :: replicate n CallCancel).
      rewrite steps_cons.
      destruct (cancel_effect _searchFn listeners this c)
        as (Hc & He & Hs & Hi).
      destruct (IH (step c CallCancel)) as (He' & Hc' & Hs' & Hi').
      rewrite He', Hc', Hs', Hi', He, Hs, Hi, Hc, <-app_assoc.
      split; [done|]. split; [by destruct n|done]. }
  destruct (Hn n c) as (He & Hc & Hs & Hi).
  repeat (split; [done|]).
  unfold cancel, bind, write, emit. simpl.
  by destruct (listeners (emitted c) EvEnd).
Qed.

(** ** Handlers that throw where nothing catches *)

(** X2. The [catch] block is not itself guarded.  When the fetch was
    rejected and a handler of [error] throws, [_getBatch] completes abruptly
    with that exception (its promise is rejected, and nobody holds it), and
    the session is left without an [end]: the [error] event is the last one
    emitted and nothing is in flight any more. *)
Theorem error_handler_throws
    (c : Client) (f : Fetch) (err exn : JsVal) (turns : nat) :
  _canceled c = false ->
  inflight c = [f] ->
  fetch_promise f = Rejected err ->
  listeners (emitted c) (EvError err) = Some exn ->
  fst (resume (fetch_query f) (Rejected err) (set_inflight [] c)) = Throw exn /\
  emitted (drain (S turns) c) = emitted c ++ [EvError err] /\
  inflight (drain (S turns) c) = [].
Proof.
  intros Hc Hi Hf Hthrow.
  assert (Hres : resume (fetch_query f) (Rejected err) (set_inflight [] c)
                 = (Throw exn,
                    set_emitted (emitted c ++ [EvError err])
                      (set_inflight [] c))).
  { clear Hi. destruct c as [canceled buffer count log reqs fetches].
    simpl in Hc, Hthrow. subst canceled.
    unfold _getBatch_resume, _getBatch_try, _getBatch_catch.
    unfold try_catch, bind, await, throw, read, emit, set_inflight.
    simpl. by rewrite Hthrow. }
  split; [by rewrite Hres|].
  rewrite (drain_S _ _ _ _ _ _ _ Hi).
  rewrite (settle_inflight _ _ _ c 0 f) by by rewrite Hi.
  rewrite Hi, Hf. simpl delete. rewrite Hres. simpl.
  by rewrite drain_idle.
Qed.

(** X3. Nor is the [end] that closes a session guarded against its own
    handlers.  When the last page was delivered and a handler of that [end]
    throws, the exception lands in the [catch] block of the same [try]: the
    client emits [error] with it and then [end] a second time.  Subscribers
    see [end], [error], [end]. *)
Theorem end_handler_throws
    (c : Client) (query : SearchQuery) (results : SearchResult) (exn : JsVal) :
  let chunk := chunk_of results in
  let counted :=
    match _resultCount c with
    | None => [EvResultCount (total results)]
    | Some _ => []
    end in
  let delivered :=
    [EvResults (if _incremental this then chunk else _results c ++ chunk)] in
  let log := emitted c ++ counted ++ delivered in
  (forall log' ev, is_end ev = false -> listeners log' ev = None) ->
  _canceled c = false ->
  exceedsMaxResults this results = false ->
  nextBatchAvailable this chunk && truthy (nextSearchAfter this chunk) = false ->
  listeners log EvEnd = Some exn ->
  emitted (snd (resume query (Resolved results) c))
  = log ++ [EvEnd; EvError exn; EvEnd] /\
  fst (resume query (Resolved results) c)
  = match listeners (log ++ [EvEnd; EvError exn]) EvEnd with
    | Some exn' => Throw exn'
    | None => Normal tt
    end /\
  sent (snd (resume query (Resolved results) c)) = sent c.
Proof.
  intros chunk counted delivered log Hother Hc Hx Hmore Hthrow.
  subst log delivered counted chunk.
  destruct c as [canceled buffer count events reqs fetches].
  simpl in Hc, Hthrow |- *. subst canceled.
  unfold _getBatch_resume, _getBatch_try, _getBatch_catch.
  unfold try_catch, bind, await, ret, read, write, emit. simpl.
  rewrite Hx, Hmore.
  destruct count as [n|], (_incremental this); simpl in Hthrow |- *;
    rewrite ?(Hother _ (EvResultCount _) eq_refl); simpl;
    rewrite ?(Hother _ (EvResults _) eq_refl); simpl;
    rewrite <-?app_assoc; simpl;
    rewrite Hthrow; simpl;
    rewrite (Hother _ (EvError _) eq_refl); simpl;
    rewrite <-?app_assoc; simpl;
    match goal with
    | |- context [listeners ?l EvEnd] => by destruct (listeners l EvEnd)
    end.
Qed.

(** ** Pages that end a session *)

(** X4. A processed page that is empty, or whose last annotation has no
    sort field or a falsy one ([undefined], [null], [0], the empty string,
    [false]), closes the session even when it is full: the chunk is
    delivered, [end] follows, there is no [error], and no further page is
    requested, whatever the total says. *)
Theorem page_without_cursor_closes
    (c : Client) (i : nat) (f : Fetch) (results : SearchResult) :
  quiet listeners ->
  _canceled c = false ->
  inflight c !! i = Some f ->
  fetch_promise f = Resolved results ->
  exceedsMaxResults this results = false ->
  (chunk_of results = [] \/
   exists a, last (chunk_of results) = Some a /\
             truthy (prop a (_sortBy this)) = false) ->
  let c' := step c (Settle i) in
  emitted c' =
    emitted c
    ++ match _resultCount c with
       | None => [EvResultCount (total results)]
       | Some _ => []
       end
    ++ [EvResults (if _incremental this then chunk_of results
                   else _results c ++ chunk_of results);
        EvEnd] /\
  sent c' = sent c /\
  inflight c' = delete i (inflight c).
Proof.
  intros Hq Hc Hi Hf Hx Hno c'. subst c'.
  assert (Hcursor : truthy (nextSearchAfter this (chunk_of results)) = false).
  { unfold nextSearchAfter.
    destruct Hno as [->|(a & -> & Ha)]; done. }
  rewrite (settle_page _ _ _ c i f results) by done. simpl.
  rewrite Hcursor, andb_false_r. simpl.
  split; [|done]. do 2 f_equal.
  by destruct (_incremental this).
Qed.

(** X5. The cursor is read off the last element of the chunk, and the
    chunk is the rows followed by the replies: as soon as a page has
    replies, the cursor for the next page is the sort field of the last
    reply, not of the last row. *)
Theorem cursor_from_last_reply (results : SearchResult) :
  nextSearchAfter this (chunk_of results)
  = match last (default [] (replies results)) with
    | Some reply => prop reply (_sortBy this)
    | None => nextSearchAfter this (rows results)
    end.
Proof.
  unfold nextSearchAfter, chunk_of.
  destruct (default [] (replies results)) as [|r rs] using rev_ind.
  - by rewrite app_nil_r.
  - by rewrite app_assoc, !last_snoc.
Qed.

(** ** What a request carries *)

(** X6. Every key of a request, for any caller's query and any cursor.  On
    [search_after] a truthy cursor wins, even over a [search_after] of the
    caller's; otherwise the caller's value wins over the engine's; the
    engine supplies [limit], [sort], [order] and [_separate_replies] where
    the caller is silent, and nothing else. *)
Theorem request_key (query : SearchQuery) (cursor : JsVal) (key : string) :
  searchQuery this query cursor !! key
  = if decide (key = "search_after") then
      if truthy cursor then Some cursor else query !! key
    else
      match query !! key with
      | Some v => Some v
      | None =>
          if decide (key = "limit") then Some (JNum (_chunkSize this))
          else if decide (key = "sort") then Some (JStr (_sortBy this))
          else if decide (key = "order") then Some (JStr (_sortOrder this))
          else if decide (key = "_separate_replies")
               then Some (JBool (_separateReplies this))
          else None
      end.
Proof.
  assert (Hunion : (query ∪ pagingDefaults this) !! key
                   = match query !! key with
                     | Some v => Some v
                     | None => pagingDefaults this !! key
                     end).
  { rewrite lookup_union. by destruct (query !! key), (pagingDefaults this !! key). }
  assert (Hdefaults : pagingDefaults this !! key
            = if decide (key = "limit") then Some (JNum (_chunkSize this))
              else if decide (key = "sort") then Some (JStr (_sortBy this))
              else if decide (key = "order") then Some (JStr (_sortOrder this))
              else if decide (key = "_separate_replies")
                   then Some (JBool (_separateReplies this))
              else None).
  { unfold pagingDefaults.
    repeat (case_decide; [subst; by simplify_map_eq|]).
    by simplify_map_eq. }
  unfold searchQuery.
  destruct (truthy cursor); cbv beta iota zeta.
  - destruct (decide (key = "search_after")) as [->|Hkey].
    + by rewrite lookup_insert_eq.
    + rewrite lookup_insert_ne by done. rewrite Hunion.
      destruct (query !! key); [done|]. by rewrite Hdefaults.
  - rewrite Hunion.
    destruct (decide (key = "search_after")) as [->|Hkey].
    + destruct (query !! "search_after"); [done|].
      by rewrite Hdefaults.
    + destruct (query !! key); [done|]. by rewrite Hdefaults.
Qed.

(** X7. The cursor field is the engine's [_sortBy], whatever the requests
    ask for.  When the caller's query has a [sort] of its own, every request
    sorts by it, while the [search_after] of the next request is still the
    last annotation's [_sortBy] field. *)
Theorem caller_sort_keeps_cursor_field
    (c : Client) (i : nat) (f : Fetch) (results : SearchResult)
    (a : Annotation) (sort : JsVal) :
  quiet listeners ->
  _canceled c = false ->
  inflight c !! i = Some f ->
  fetch_promise f = Resolved results ->
  exceedsMaxResults this results = false ->
  Z.of_nat (length (chunk_of results)) = _chunkSize this ->
  last (chunk_of results) = Some a ->
  truthy (prop a (_sortBy this)) = true ->
  fetch_query f !! "sort" = Some sort ->
  exists request,
    sent (step c (Settle i)) = sent c ++ [request] /\
    request !! "sort" = Some sort /\
    request !! "search_after" = Some (prop a (_sortBy this)).
Proof.
  intros Hq Hc Hi Hf Hx Hfull Hlast Ha Hsort.
  assert (Hcursor : nextSearchAfter this (chunk_of results)
                    = prop a (_sortBy this)).
  { unfold nextSearchAfter. by rewrite Hlast. }
  rewrite (settle_page _ _ _ c i f results) by done. simpl.
  unfold nextBatchAvailable.
  rewrite (proj2 (Z.eqb_eq _ _) Hfull), Hcursor, Ha. simpl.
  eexists. split; [done|].
  rewrite !request_key, Ha, Hsort. by split.
Qed.

(** ** One request at a time *)

(** Whatever the subscribers do, a fetch that settles makes the client send
    at most one request, and the request is in flight afterwards. *)
Lemma resume_sends_at_most_one
    (query : SearchQuery) (settled : Outcome) (c : Client) :
  let c' := snd (resume query settled c) in
  (sent c' = sent c /\ inflight c' = inflight c) \/
  (exists request fetch,
     sent c' = sent c ++ [request] /\ inflight c' = inflight c ++ [fetch]).
Proof.
  unfold _getBatch_resume, _getBatch_try, _getBatch_catch.
  unfold try_catch, bind, await, throw, ret, read, write, emit, _getBatch.
  destruct settled as [results|err]; simpl.
  - destruct (_canceled c) eqn:Hc; simpl; [by left|].
    destruct (exceedsMaxResults this results), (_resultCount c),
      (_incremental this),
      (nextBatchAvailable this (chunk_of results)
       && truthy (nextSearchAfter this (chunk_of results))); simpl;
      repeat match goal with
        | |- context [match listeners ?l ?e with _ => _ end] =>
            let L := fresh "L" in destruct (listeners l e) eqn:L; simpl
        | |- context [if ?b then _ else _] => destruct b eqn:?; simpl
        end; try (by left); try (right; by eexists _, _); simpl in *;
      congruence.
  - destruct (_canceled c) eqn:Hc; simpl; [by left|].
    repeat match goal with
      | |- context [match listeners ?l ?e with _ => _ end] =>
          let L := fresh "L" in destruct (listeners l e) eqn:L; simpl
      end; by left.
Qed.

(** X8. Paging is strictly sequential, whatever the data and whatever the
    subscribers do.  In a session started on a client with nothing in
    flight, at most one fetch is in flight at any time, and after any
    number of turns the client has sent at least the first request and at
    most one request per turn more. *)
Theorem one_request_at_a_time (c0 : Client) (query : SearchQuery) (turns : nat) :
  inflight c0 = [] ->
  let c := session _searchFn listeners this c0 query turns in
  (length (inflight c) <= 1)%nat /\
  (length (sent c0) + 1 <= length (sent c))%nat /\
  (length (sent c) <= length (sent c0) + 1 + turns)%nat.
Proof.
  intros Hidle c. subst c. rewrite session_eq, get_effect, Hidle.
  assert (Hdrain : forall turns c,
             (length (inflight c) <= 1)%nat ->
             (length (inflight (drain turns c)) <= 1)%nat /\
             (length (sent c) <= length (sent (drain turns c)))%nat /\
             (length (sent (drain turns c)) <= length (sent c) + turns)%nat).
  { clear. intros turns. induction turns as [|turns IH]; intros c Hone.
    - simpl. lia.
    - destruct (inflight c) as [|f fs] eqn:Hi.
      + rewrite drain_idle by done. rewrite Hi. simpl. lia.
      + assert (fs = []) as -> by (destruct fs; [done|simpl in Hone; lia]).
        rewrite (drain_S _ _ _ _ _ _ _ Hi).
        rewrite (settle_inflight _ _ _ c 0 f) by by rewrite Hi.
        rewrite Hi. simpl delete.
        destruct (resume_sends_at_most_one (fetch_query f) (fetch_promise f)
                    (set_inflight [] c))
          as [[Hs Hf]|(request & fetch & Hs & Hf)];
          simpl in Hs, Hf;
          match goal with
          | |- context [drain _ ?c'] =>
              destruct (IH c') as (H1 & H2 & H3);
              [rewrite Hf; simpl; lia|];
              rewrite Hs in H2, H3; rewrite ?length_app in H2, H3;
              simpl in H2, H3; split; [done|lia]
          end. }
  match goal with |- context [drain _ ?c] => set (c1 := c) end.
  destruct (Hdrain turns c1) as (H1 & H2 & H3); [simpl; lia|].
  change (sent c1) with (sent c0 ++ [searchQuery this query JUndefined])
    in H2, H3.
  rewrite length_app in H2, H3. simpl length in H2, H3.
  split; [done|]. lia.
Qed.

(** ** Two sessions at once *)

(** X9. [get] neither cancels nor waits for a session under way, and the
    two share [_results] and [_resultCount], which the second [get] has
    just cleared.  With one page each, the page of the first session
    settling first: the first session announces its total and closes as
    usual; the second announces no [resultCount] at all, and in batch mode
    its [results] event starts with the annotations of the first. *)
Theorem overlapping_get_shares_state
    (c : Client) (q1 q2 : SearchQuery) (r1 r2 : SearchResult) :
  quiet listeners ->
  _canceled c = false ->
  inflight c = [] ->
  _searchFn (length (sent c)) (searchQuery this q1 JUndefined) = Resolved r1 ->
  _searchFn (S (length (sent c))) (searchQuery this q2 JUndefined)
  = Resolved r2 ->
  exceedsMaxResults this r1 = false ->
  exceedsMaxResults this r2 = false ->
  nextBatchAvailable this (chunk_of r1)
  && truthy (nextSearchAfter this (chunk_of r1)) = false ->
  nextBatchAvailable this (chunk_of r2)
  && truthy (nextSearchAfter this (chunk_of r2)) = false ->
  let c' := steps c [CallGet q1; CallGet q2; Settle 0; Settle 0] in
  events_since c c'
  = [EvResultCount (total r1);
     EvResults (chunk_of r1);
     EvEnd;
     EvResults (if _incremental this then chunk_of r2
                else chunk_of r1 ++ chunk_of r2);
     EvEnd] /\
  inflight c' = [].
Proof.
  intros Hq Hc Hidle H1 H2 Hx1 Hx2 Hm1 Hm2 c'. subst c'.
  set (req1 := searchQuery this q1 JUndefined) in *.
  set (req2 := searchQuery this q2 JUndefined) in *.
  set (f1 := mkFetch q1 (Resolved r1)).
  set (f2 := mkFetch q2 (Resolved r2)).
  set (c2 := mkClient false [] None (emitted c)
               ((sent c ++ [req1]) ++ [req2]) [f1; f2]).
  assert (Hgets : steps c [CallGet q1; CallGet q2] = c2).
  { rewrite !steps_cons. change (steps ?x []) with x.
    rewrite !get_effect, Hidle. cbn [_canceled emitted sent inflight].
    rewrite length_app, Nat.add_1_r. fold req1 req2.
    by rewrite H1, H2, Hc. }
  change [CallGet q1; CallGet q2; Settle 0; Settle 0]
    with ([CallGet q1; CallGet q2] ++ [Settle 0; Settle 0]).
  rewrite steps_app, Hgets, !steps_cons. change (steps ?x []) with x.
  rewrite (settle_page _ _ _ c2 0 f1 r1 Hq eq_refl eq_refl eq_refl Hx1).
  rewrite Hm1. cbn [_canceled _results _resultCount emitted sent inflight c2].
  match goal with |- context [step ?x (Settle 0)] => set (c3 := x) end.
  rewrite (settle_page _ _ _ c3 0 f2 r2 Hq eq_refl eq_refl eq_refl Hx2).
  rewrite Hm2. cbn [_canceled _results _resultCount emitted sent inflight c3].
  split; [|done].
  unfold events_since. cbn [emitted].
  rewrite <-!app_assoc, drop_app_length.
  by destruct (_incremental this).
Qed.

(** ** Memory *)

(** X10. An incremental client keeps no annotations: if [_results] is empty
    it stays empty, whatever is called, whatever settles and whatever the
    subscribers do. *)
Theorem incremental_keeps_nothing (c : Client) (inputs : list Input) :
  _incremental this = true ->
  _results c = [] ->
  _results (steps c inputs) = [].
Proof.
  intros Hinc. revert c.
  induction inputs as [|input inputs IH]; intros c Hempty; [done|].
  rewrite steps_cons. apply IH.
  destruct input as [query| |i].
  - by rewrite get_effect.
  - simpl. unfold cancel, bind, write, emit. simpl.
    by destruct (listeners _ _).
  - simpl. destruct (inflight c !! i) as [f|]; [|done].
    unfold _getBatch_resume, _getBatch_try, _getBatch_catch.
    unfold try_catch, bind, await, throw, ret, read, write, emit, _getBatch.
    rewrite Hinc.
    destruct (fetch_promise f) as [results|err]; simpl.
    + destruct (_canceled c) eqn:Hc; simpl; [done|].
      destruct (exceedsMaxResults this results), (_resultCount c); simpl;
        repeat match goal with
          | |- context [match listeners ?l ?e with _ => _ end] =>
              let L := fresh "L" in destruct (listeners l e) eqn:L; simpl
          | |- context [if ?b then _ else _] => destruct b eqn:?; simpl
          end; try done; simpl in *; congruence.
    + destruct (_canceled c) eqn:Hc; simpl; [done|].
      repeat match goal with
        | |- context [match listeners ?l ?e with _ => _ end] =>
            let L := fresh "L" in destruct (listeners l e) eqn:L; simpl
        end; done.
Qed.

(** ** The size limit, later in a session *)

(** X11. The size limit is tested on every page, not on the first only.
    When the first page is full and within the limit and the second reports
    a total over it, the session ends with [error] and [end] after the
    second fetch.  Incrementally the first chunk was delivered already and
    stands; in batch mode it was only buffered and is never delivered. *)
Theorem size_limit_on_later_page
    (c0 : Client) (query : SearchQuery) (r1 r2 : SearchResult) (turns : nat) :
  quiet listeners ->
  _canceled c0 = false ->
  inflight c0 = [] ->
  let cursor := nextSearchAfter this (chunk_of r1) in
  _searchFn (length (sent c0)) (searchQuery this query JUndefined)
  = Resolved r1 ->
  exceedsMaxResults this r1 = false ->
  nextBatchAvailable this (chunk_of r1) && truthy cursor = true ->
  _searchFn (S (length (sent c0))) (searchQuery this query cursor)
  = Resolved r2 ->
  exceedsMaxResults this r2 = true ->
  let c := session _searchFn listeners this c0 query (S (S turns)) in
  events_since c0 c
  = [EvResultCount (total r1)]
    ++ (if _incremental this then [EvResults (chunk_of r1)] else [])
    ++ [EvError (JError "Results size exceeds maximum allowed annotations");
        EvEnd] /\
  inflight c = [] /\
  length (sent c) = (length (sent c0) + 2)%nat.
Proof.
  intros Hq Hc Hidle cursor H1 Hx1 Hmore H2 Hx2 c. subst c.
  rewrite session_eq, get_effect, Hidle, H1. cbn [app].
  match goal with |- context [drain _ ?x] => set (c1 := x) end.
  rewrite (drain_S _ _ _ _ c1 _ _ eq_refl).
  rewrite (settle_page _ _ _ c1 0 _ r1 Hq Hc eq_refl eq_refl Hx1).
  fold cursor. rewrite Hmore.
  cbn [_canceled _results _resultCount emitted sent inflight c1 delete
       fetch_query app].
  rewrite length_app, Nat.add_1_r, H2.
  match goal with |- context [drain _ ?x] => set (c2 := x) end.
  destruct (maxResults_guard_any c2 _ r2 turns Hq
              eq_refl eq_refl eq_refl Hx2) as (He & Hs & Hi).
  unfold events_since. rewrite He, Hs, Hi.
  cbn [emitted sent c2].
  rewrite <-!app_assoc, drop_app_length, !length_app. cbn [length].
  split; [|split; [done|lia]].
  by destruct (_incremental this).
Qed.

(** ** Page sizes that make no sense *)

(** X12. With a [chunkSize] of zero or less no second page is ever
    requested, whatever the data and the subscribers: a chunk cannot be
    shorter than empty, and an empty chunk has no cursor. *)
Theorem nonpositive_chunkSize_single_page
    (c0 : Client) (query : SearchQuery) (turns : nat) :
  _chunkSize this <= 0 ->
  inflight c0 = [] ->
  sent (session _searchFn listeners this c0 query turns)
  = sent c0 ++ [searchQuery this query JUndefined].
Proof.
  intros Hsize Hidle.
  rewrite session_eq, get_effect.
  destruct turns as [|turns]; [done|].
  rewrite Hidle. simpl.
  match goal with
  | |- context [_getBatch_resume _ _ _ ?q ?o ?c] =>
      destruct (resume_last_page _searchFn listeners this q o c) as [Hs Hi]
  end.
  { intros results _.
    destruct (nextBatchAvailable this (chunk_of results)) eqn:Hfull; [|done].
    apply Z.eqb_eq in Hfull. simpl.
    destruct (chunk_of results) as [|a chunk]; [done|].
    simpl in Hfull. lia. }
  rewrite drain_idle; [by rewrite Hs|by rewrite Hi].
Qed.

End Edges.

Lemma error_handler_throws_witness :
  let c := step unreachable throw_on_error defaultOptions new_client
             (CallGet ∅) in
  fst (_getBatch_resume unreachable throw_on_error defaultOptions ∅
         (Rejected (JError "Network error")) (set_inflight [] c))
  = Throw (JError "handler failed") /\
  emitted (drain unreachable throw_on_error defaultOptions 3 c)
  = emitted c ++ [EvError (JError "Network error")] /\
  inflight (drain unreachable throw_on_error defaultOptions 3 c) = [].
Proof.
  apply (error_handler_throws unreachable throw_on_error defaultOptions _
           (mkFetch ∅ (Rejected (JError "Network error")))).
  - reflexivity.
  - reflexivity.
  - reflexivity.
  - reflexivity.
Defined.

Lemma throw_on_end_only (log : list Event) (ev : Event) :
  is_end ev = false -> throw_on_end log ev = None.
Proof. intros Hev. unfold throw_on_end. by rewrite Hev. Qed.

Lemma end_handler_throws_witness :
  let page := mkSearchResult 1 [ann 1] None in
  emitted (snd (_getBatch_resume one_item throw_on_end defaultOptions ∅
                  (Resolved page) new_client))
  = [EvResultCount 1; EvResults [ann 1]]
    ++ [EvEnd; EvError (JError "handler failed"); EvEnd] /\
  fst (_getBatch_resume one_item throw_on_end defaultOptions ∅
         (Resolved page) new_client)
  = Throw (JError "handler failed") /\
  sent (snd (_getBatch_resume one_item throw_on_end defaultOptions ∅
               (Resolved page) new_client)) = [].
Proof.
  apply (end_handler_throws one_item throw_on_end defaultOptions new_client ∅
           (mkSearchResult 1 [ann 1] None) (JError "handler failed")).
  - exact throw_on_end_only.
  - reflexivity.
  - reflexivity.
  - reflexivity.
  - reflexivity.
Defined.

Lemma page_without_cursor_closes_witness :
  let c := step two_untimed no_throw pages_of_two new_client (CallGet ∅) in
  let c' := step two_untimed no_throw pages_of_two c (Settle 0) in
  emitted c' = emitted c ++ [EvResultCount 5]
               ++ [EvResults [untimed; untimed]; EvEnd] /\
  sent c' = sent c /\
  inflight c' = delete 0%nat (inflight c).
Proof.
  assert (Hlast : chunk_of (mkSearchResult 5 [untimed; untimed] None) = []
                  \/ exists a,
                       last (chunk_of (mkSearchResult 5 [untimed; untimed] None))
                       = Some a
                       /\ truthy (prop a (_sortBy pages_of_two)) = false).
  { right. exists untimed. split; reflexivity. }
  pose proof (page_without_cursor_closes two_untimed no_throw pages_of_two
                (step two_untimed no_throw pages_of_two new_client (CallGet ∅))
                0
                (mkFetch ∅ (Resolved (mkSearchResult 5 [untimed; untimed] None)))
                (mkSearchResult 5 [untimed; untimed] None)
                (fun _ _ => eq_refl) eq_refl eq_refl eq_refl eq_refl Hlast)
    as H.
  vm_compute in H |- *. exact H.
Defined.

Lemma caller_sort_keeps_cursor_field_witness :
  let c := step three_items no_throw pages_of_two new_client
             (CallGet sorted_by_updated) in
  exists request,
    sent (step three_items no_throw pages_of_two c (Settle 0))
    = sent c ++ [request] /\
    request !! "sort" = Some (JStr "updated") /\
    request !! "search_after" = Some (prop (ann 2) "created").
Proof.
  apply (caller_sort_keeps_cursor_field three_items no_throw pages_of_two _ 0
           (mkFetch sorted_by_updated
              (Resolved (mkSearchResult 3 [ann 1; ann 2] None)))
           (mkSearchResult 3 [ann 1; ann 2] None) (ann 2) (JStr "updated")).
  - intros log ev. reflexivity.
  - reflexivity.
  - reflexivity.
  - reflexivity.
  - reflexivity.
  - reflexivity.
  - reflexivity.
  - reflexivity.
  - reflexivity.
Defined.

Lemma one_request_at_a_time_witness :
  let c := session three_items throw_on_results pages_of_two new_client ∅ 5 in
  (length (inflight c) <= 1)%nat /\
  (length (sent new_client) + 1 <= length (sent c))%nat /\
  (length (sent c) <= length (sent new_client) + 1 + 5)%nat.
Proof.
  apply (one_request_at_a_time three_items throw_on_results pages_of_two
           new_client ∅ 5).
  reflexivity.
Defined.

Lemma overlapping_get_shares_state_witness :
  let c' := steps one_item no_throw batch_defaults new_client
              [CallGet ∅; CallGet ∅; Settle 0; Settle 0] in
  events_since new_client c'
  = [EvResultCount 1; EvResults [ann 1]; EvEnd;
     EvResults ([ann 1] ++ [ann 1]); EvEnd] /\
  inflight c' = [].
Proof.
  apply (overlapping_get_shares_state one_item no_throw batch_defaults
           new_client ∅ ∅ (mkSearchResult 1 [ann 1] None)
           (mkSearchResult 1 [ann 1] None)).
  - intros log ev. reflexivity.
  - reflexivity.
  - reflexivity.
  - reflexivity.
  - reflexivity.
  - reflexivity.
  - reflexivity.
  - reflexivity.
  - reflexivity.
Defined.

Lemma incremental_keeps_nothing_witness :
  _results (steps three_items throw_on_results pages_of_two new_client
              [CallGet ∅; Settle 0; CallCancel; CallGet ∅; Settle 0]) = [].
Proof.
  apply (incremental_keeps_nothing three_items throw_on_results pages_of_two).
  - reflexivity.
  - reflexivity.
Defined.

Lemma size_limit_on_later_page_witness :
  let c := session growing_total no_throw at_most_two new_client ∅ 3 in
  events_since new_client c
  = [EvResultCount 2;
     EvError (JError "Results size exceeds maximum allowed annotations");
     EvEnd] /\
  inflight c = [] /\
  length (sent c) = 2%nat.
Proof.
  pose proof (size_limit_on_later_page growing_total no_throw at_most_two
                new_client ∅
                (mkSearchResult 2 [ann 1; ann 2] None)
                (mkSearchResult 3 [ann 1; ann 2] None) 1
                (fun _ _ => eq_refl) eq_refl eq_refl eq_refl eq_refl eq_refl
                eq_refl eq_refl) as H.
  vm_compute in H |- *. exact H.
Defined.

Lemma nonpositive_chunkSize_single_page_witness :
  sent (session one_item no_throw no_page_size new_client ∅ 4)
  = sent new_client ++ [searchQuery no_page_size ∅ JUndefined].
Proof.
  apply (nonpositive_chunkSize_single_page one_item no_throw no_page_size).
  - discriminate.
  - reflexivity.
Defined.

(** * The annotator's entry point *)

Section Entry.

Import Annotator.

Variable subFrameIdentifier : JsVal.

Abbreviation init := (Annotator.init subFrameIdentifier).
Abbreviation dispatch := (Annotator.dispatch subFrameIdentifier).
Abbreviation run := (Annotator.run subFrameIdentifier).

Abbreviation built := (Annotator.built subFrameIdentifier).
Abbreviation captured := (Annotator.captured subFrameIdentifier).
Abbreviation initialised := (Annotator.initialised subFrameIdentifier).

Lemma init_initialises (p : Page) :
  destroy p = [] -> effects p = [] -> resolved p = true ->
  __hypothesis_frame p = false ->
  initialised (init p).
Proof.
  intros Hd He Hr Hf. unfold Annotator.initialised, Annotator.init, Annotator.built, Annotator.captured.
  destruct (truthy subFrameIdentifier); simpl; by rewrite Hd, He, ?Hf.
Qed.

Lemma on_destroy_captured (p : Page) :
  constructed (effects p) = built ->
  let p' := on_destroy captured p in
  destroyed (effects p') = destroyed (effects p) ++ built /\
  constructed (effects p') = constructed (effects p) /\
  assets p' = [] /\
  resolved p' = resolved p /\ destroy p' = destroy p /\
  __hypothesis_frame p' = __hypothesis_frame p.
Proof.
  intros Hb. unfold on_destroy, Annotator.captured, Annotator.built, constructed, destroyed.
  simpl. rewrite !omap_app.
  assert (Hrm : forall l : list nat,
             omap (fun e => match e with New c => Some c | _ => None end)
               (Remove <$> l) = []
             /\ omap (fun e => match e with Destroy c => Some c | _ => None end)
                  (Remove <$> l) = []).
  { intros l. induction l as [|x l [IH1 IH2]]; [done|]. simpl. by split. }
  destruct (Hrm (assets p)) as [-> ->].
  destruct (truthy subFrameIdentifier); simpl; by rewrite !app_nil_r.
Qed.

Lemma initialised_dispatch (p : Page) (ev : DomEvent) :
  initialised p -> initialised (dispatch p ev).
Proof.
  intros (Hr & Hd & Hc & Hf). destruct ev as [state|]; simpl.
  - destruct (readystatechange p); [done|]. by rewrite Hr.
  - rewrite Hd. simpl.
    destruct (on_destroy_captured p Hc) as (_ & Hc' & _ & Hr' & Hd' & Hf').
    unfold Annotator.initialised. by rewrite Hr', Hd', Hc', Hf'.
Qed.

Lemma waiting_dispatch (p : Page) (ev : DomEvent) :
  waiting p ->
  if is_ReadyStateChange ev then initialised (dispatch p ev)
  else dispatch p ev = p.
Proof.
  intros (Hr & Hl & Hd & He & Hf). destruct ev as [state|]; simpl.
  - rewrite Hl, Hr. apply init_initialises; simpl; by rewrite ?Hr.
  - by rewrite Hd.
Qed.

Lemma run_cases (state : ReadyState) (pdf : bool) (marked : list nat)
    (events : list DomEvent) :
  let p := run (fresh state pdf marked) events in
  let ready :=
    match state with loading => false | _ => true end
    || existsb is_ReadyStateChange events in
  if ready then initialised p else waiting p /\ assets p = marked.
Proof.
  intros p ready. subst p ready. unfold Annotator.run.
  assert (Hinit : forall events p,
             initialised p -> initialised (foldl dispatch p events)).
  { clear. intros events. induction events as [|ev events IH]; intros p Hp;
      [done|]. simpl. by apply IH, initialised_dispatch. }
  assert (Hwait : forall events p,
             waiting p ->
             if existsb is_ReadyStateChange events
             then initialised (foldl dispatch p events)
             else waiting (foldl dispatch p events)
                  /\ assets (foldl dispatch p events) = assets p).
  { clear -Hinit. intros events.
    induction events as [|ev events IH]; intros p Hp; [done|].
    pose proof (waiting_dispatch p ev Hp) as Hev.
    cbn [existsb foldl].
    destruct (is_ReadyStateChange ev).
    - by apply Hinit.
    - cbn [orb]. rewrite Hev. by apply IH. }
  destruct state; cbn [orb].
  - apply (Hwait events). by unfold Annotator.start.
  - apply Hinit. unfold Annotator.start. simpl.
    by apply init_initialises.
  - apply Hinit. unfold Annotator.start. simpl.
    by apply init_initialises.
Qed.

(** X13. [init] runs once the document is ready and never twice.  If the
    document is past [loading] when the script starts, or as soon as one
    [readystatechange] is dispatched, the guest is constructed, with a frame
    connector, a sidebar and a notebook unless the page is a sub-frame
    ([subFrameIdentifier] truthy), where [__hypothesis_frame] is set
    instead; one [destroy] listener is registered.  Further
    [readystatechange] events construct nothing more, and before the first
    one nothing is constructed. *)
Theorem init_runs_once (state : ReadyState) (pdf : bool) (marked : list nat)
    (events : list DomEvent) :
  let p := run (fresh state pdf marked) events in
  let ready :=
    match state with loading => false | _ => true end
    || existsb is_ReadyStateChange events in
  constructed (effects p) = (if ready then built else []) /\
  length (destroy p) = (if ready then 1 else 0)%nat /\
  __hypothesis_frame p = ready && truthy subFrameIdentifier.
Proof.
  intros p ready. pose proof (run_cases state pdf marked events) as H.
  cbv zeta in H. fold p ready in H.
  destruct ready.
  - destruct H as (_ & Hd & Hc & Hf). by rewrite Hd, Hc, Hf.
  - destruct H as [(_ & _ & Hd & He & Hf) _]. by rewrite Hd, He, Hf.
Qed.

(** X14. A [destroy] event undoes what [init] did, whenever it comes: it
    calls [destroy] on exactly the components constructed so far, in the
    order of their construction (the guest alone in a sub-frame), constructs
    nothing, and removes every marked asset; before [init] has run it finds
    no listener, destroys nothing and leaves the assets in the page. *)
Theorem destroy_undoes_init (state : ReadyState) (pdf : bool)
    (marked : list nat) (events : list DomEvent) :
  let p := run (fresh state pdf marked) events in
  let p' := dispatch p DestroyEvent in
  let ready :=
    match state with loading => false | _ => true end
    || existsb is_ReadyStateChange events in
  destroyed (effects p') = destroyed (effects p) ++ constructed (effects p) /\
  constructed (effects p') = constructed (effects p) /\
  assets p' = (if ready then [] else marked).
Proof.
  intros p p' ready. pose proof (run_cases state pdf marked events) as H.
  cbv zeta in H. fold p ready in H. subst p'.
  destruct ready.
  - destruct H as (_ & Hd & Hc & _).
    change (dispatch p DestroyEvent)
      with (foldl (fun p locals => on_destroy locals p) p (destroy p)).
    rewrite Hd. cbn [foldl].
    destruct (on_destroy_captured p Hc) as (Hdes & Hc' & Ha & _).
    by rewrite Hdes, Hc', Ha, Hc.
  - destruct H as [(_ & _ & Hd & He & _) Ha].
    change (dispatch p DestroyEvent)
      with (foldl (fun p locals => on_destroy locals p) p (destroy p)).
    rewrite Hd. cbn [foldl]. by rewrite He, Ha.
Qed.

(** X15. A [destroy] event that comes while the document is still loading
    is lost: however many of them are dispatched, the first
    [readystatechange] after them still starts the client, and nothing is
    destroyed and no asset removed. *)
Theorem early_destroy_is_lost (pdf : bool) (marked : list nat) (n : nat)
    (state : ReadyState) :
  let p := run (fresh loading pdf marked)
             (replicate n DestroyEvent ++ [ReadyStateChange state]) in
  constructed (effects p) = built /\
  destroyed (effects p) = [] /\
  assets p = marked.
Proof.
  intros p. subst p. unfold Annotator.run.
  rewrite foldl_app.
  assert (Hlost : forall n p,
             destroy p = [] -> foldl dispatch p (replicate n DestroyEvent) = p).
  { clear. intros n. induction n as [|n IH]; intros p Hd; [done|].
    simpl. rewrite Hd. simpl. by apply IH. }
  rewrite Hlost by done.
  unfold Annotator.start, Annotator.built. simpl.
  unfold Annotator.init, Annotator.resolve. simpl.
  by destruct (truthy subFrameIdentifier).
Qed.

End Entry.

Example sub_frame_lifecycle :
  let p := Annotator.run (JStr "frame-1")
             (Annotator.fresh Annotator.loading true [7; 8]%nat)
             [Annotator.ReadyStateChange Annotator.interactive;
              Annotator.ReadyStateChange Annotator.complete;
              Annotator.DestroyEvent] in
  Annotator.effects p
  = [Annotator.New Annotator.Guest; Annotator.GuestDocumentType "pdf";
     Annotator.Destroy Annotator.Guest;
     Annotator.Remove 7%nat; Annotator.Remove 8%nat] /\
  Annotator.__hypothesis_frame p = true.
Proof. vm_compute. done. Qed.

Example host_page_lifecycle :
  Annotator.effects
    (Annotator.run JNull (Annotator.fresh Annotator.complete false [7%nat])
       [Annotator.DestroyEvent])
  = [Annotator.New Annotator.Guest; Annotator.GuestDocumentType "html";
     Annotator.New Annotator.FrameConnector; Annotator.Listen;
     Annotator.New Annotator.Sidebar; Annotator.New Annotator.Notebook;
     Annotator.Destroy Annotator.Guest;
     Annotator.Destroy Annotator.FrameConnector;
     Annotator.Destroy Annotator.Sidebar;
     Annotator.Destroy Annotator.Notebook;
     Annotator.Remove 7%nat].
Proof. vm_compute. done. Qed.
